(** * localtunnel-server: the tunnel agent (lib/TunnelAgent.js)

    A shallow embedding of the [TunnelAgent] class: the pool of tunnel
    sockets a client dials in, the queue of pending [createConnection]
    callbacks, and the Node runtime pieces the class talks to (the
    listener, the sockets' one-shot listeners, zero-delay timers).

    Layout: JavaScript array helpers, the ipaddr.js interface, the data
    model, the methods of the class, the runtime dispatch, and then the
    properties. *)

From Stdlib Require Import ZArith List String Ascii Bool Lia Arith.
From Stdlib Require Import Permutation Sorted.
Import ListNotations.

Local Open Scope list_scope.
Local Open Scope Z_scope.

(* ------------------------------------------------------------------ *)
(** ** JavaScript arrays *)

Module Js.

Section Arrays.
Context {A : Type}.

(** [a.shift()]: the head (or [undefined]) and what is left. *)
Definition shift (a : list A) : option A * list A :=
  match a with
  | [] => (None, [])
  | x :: rest => (Some x, rest)
  end.

(** [a.push(x)]. *)
Definition push (a : list A) (x : A) : list A := a ++ [x].

(** [a.indexOf(x)] under the equality test [same]: the first index
    holding [x], or -1. *)
Fixpoint indexOf (same : A -> A -> bool) (x : A) (a : list A) : Z :=
  match a with
  | [] => -1
  | y :: rest =>
      if same y x then 0
      else let i := indexOf same x rest in
           if i <? 0 then -1 else i + 1
  end.

(** [a.splice(i, 1)] for an index [i >= 0]: out of range it removes
    nothing. *)
Fixpoint splice1 (i : nat) (a : list A) : list A :=
  match a, i with
  | [], _ => []
  | _ :: rest, O => rest
  | y :: rest, S j => y :: splice1 j rest
  end.
End Arrays.

(** Truthiness of a value that is [null]/[undefined] or a string. *)
Definition truthy (v : option string) : bool :=
  match v with
  | Some s => negb (s =? EmptyString)%string
  | None => false
  end.

(** [o || d] for an optional number: [undefined] and [0] are falsy. *)
Definition or_default (o : option Z) (d : Z) : Z :=
  match o with
  | Some v => if v =? 0 then d else v
  | None => d
  end.

(** [s.trim()], on the ASCII white space and line terminators. *)
Definition is_space (c : ascii) : bool :=
  let n := nat_of_ascii c in
  ((9 <=? n) && (n <=? 13))%nat || (n =? 32)%nat.

Fixpoint trimStart (s : string) : string :=
  match s with
  | EmptyString => EmptyString
  | String c rest => if is_space c then trimStart rest else s
  end.

Fixpoint trimEnd (s : string) : string :=
  match s with
  | EmptyString => EmptyString
  | String c rest =>
      match trimEnd rest with
      | EmptyString => if is_space c then EmptyString else String c EmptyString
      | t => String c t
      end
  end.

Definition trim (s : string) : string := trimEnd (trimStart s).

End Js.

(* ------------------------------------------------------------------ *)
(** ** ipaddr.js

    The agent uses five entry points of the ipaddr.js package.  The package
    is a dependency, not part of this repository, so it enters as an
    interface.  [IPv6.isValid] is, in the package, "the parser does not
    throw"; here [IPv6_parse] returns [None] where the parser throws. *)

Class IpAddrLib : Type := {
  IPv6 : Type;
  IPv4_isValid : string -> bool;
  IPv6_parse : string -> option IPv6;
  isIPv4MappedAddress : IPv6 -> bool;
  (** [ip.toIPv4Address().toString()] *)
  toIPv4Address_toString : IPv6 -> string;
  toNormalizedString : IPv6 -> string
}.

Definition IPv6_isValid `{IpAddrLib} (s : string) : bool :=
  match IPv6_parse s with Some _ => true | None => false end.

(* ------------------------------------------------------------------ *)
(** ** Data model *)

(** A [net.Socket]: an object, compared by identity.  [sock_id] is that
    identity (the order in which the runtime created the sockets);
    [remoteAddress] is the peer address the object reports. *)
Record Socket : Type := mkSocket {
  sock_id : nat;
  remoteAddress : string
}.

Definition same_socket (s t : Socket) : bool := (sock_id s =? sock_id t)%nat.

(** A [cb(err, socket)] callback handed to [createConnection]: an opaque
    function, named by a number.  Callbacks and sockets are objects, so
    the tests [if (fn)] and [if (!sock)] only tell a [shift()] that found
    an element from one that found none.  A call to a callback, like an
    emitted event, is recorded as something done to the outside: it is
    taken to return normally, and what the consumer does next reaches the
    agent as events of its own. *)
Definition Callback : Type := nat.

Inductive AgentEvent : Type := online | offline | end_.

(** What a callback is invoked with. *)
Inductive CbArgs : Type :=
| Failed (msg : string)       (* cb(new Error(msg)) *)
| Given (s : Socket).         (* cb(null, s) *)

(** What the agent does to the outside, in order. *)
Inductive Effect : Type :=
| SetTimeout (s : Socket) (ms : Z)     (* socket.setTimeout(ms) *)
| Destroy (s : Socket)                 (* socket.destroy() *)
| Emit (e : AgentEvent)                (* this.emit(e) *)
| Call (cb : Callback) (args : CbArgs)
| ServerClose                          (* this.server.close() *)
| SuperDestroy.                        (* super.destroy() *)

(** The fields of a [TunnelAgent] instance. *)
Record TunnelAgent : Type := mkAgent {
  availableSockets : list Socket;
  waitingCreateConn : list Callback;
  connectedSockets : Z;
  maxTcpSockets : Z;
  _socketTimeout : Z;
  started : bool;
  closed : bool;
  agentIps : list string
}.

(** The agent together with the runtime around it. *)
Record World : Type := mkWorld {
  this : TunnelAgent;
  (** the sockets whose [once('close')] listener is still armed, in the
      order the listeners were put on *)
  closeOnce : list Socket;
  (** pending [setTimeout(..., 0)] hand-offs, oldest first *)
  timers : list (Callback * Socket);
  (** the listener accepts connections *)
  serverListening : bool;
  (** identity of the next socket object the runtime creates *)
  nextSocket : nat;
  (** the module-level [PUBLIC_IP] *)
  PUBLIC_IP : option string;
  (** everything done to the outside so far *)
  effects : list Effect;
  (** Bookkeeping the code does not do ("the agent does not track it
      further"): the sockets handed, or scheduled to be handed, to a
      consumer and not yet closed. *)
  checkedOut : list Socket
}.

Definition DEFAULT_MAX_SOCKETS : Z := 10.
Definition DEFAULT_SOCKET_TIMEOUT : Z := 60 * 1000.

Record Options : Type := mkOptions {
  opt_maxTcpSockets : option Z;
  opt_socketTimeout : option Z
}.

(** [new TunnelAgent(options)]. *)
Definition new_TunnelAgent (options : Options) : TunnelAgent :=
  {| availableSockets := [];
     waitingCreateConn := [];
     connectedSockets := 0;
     maxTcpSockets := Js.or_default (opt_maxTcpSockets options) DEFAULT_MAX_SOCKETS;
     _socketTimeout := Js.or_default (opt_socketTimeout options) DEFAULT_SOCKET_TIMEOUT;
     started := false;
     closed := false;
     agentIps := [] |}.

(** A fresh process holding one new agent. *)
Definition boot (options : Options) : World :=
  {| this := new_TunnelAgent options;
     closeOnce := [];
     timers := [];
     serverListening := false;
     nextSocket := 0%nat;
     PUBLIC_IP := None;
     effects := [];
     checkedOut := [] |}.

(** Field updates. *)
Definition with_this (f : TunnelAgent -> TunnelAgent) (w : World) : World :=
  {| this := f (this w); closeOnce := closeOnce w; timers := timers w;
     serverListening := serverListening w; nextSocket := nextSocket w;
     PUBLIC_IP := PUBLIC_IP w; effects := effects w;
     checkedOut := checkedOut w |}.

Definition do (e : list Effect) (w : World) : World :=
  {| this := this w; closeOnce := closeOnce w; timers := timers w;
     serverListening := serverListening w; nextSocket := nextSocket w;
     PUBLIC_IP := PUBLIC_IP w; effects := effects w ++ e;
     checkedOut := checkedOut w |}.

Definition set_available (l : list Socket) (a : TunnelAgent) : TunnelAgent :=
  {| availableSockets := l; waitingCreateConn := waitingCreateConn a;
     connectedSockets := connectedSockets a; maxTcpSockets := maxTcpSockets a;
     _socketTimeout := _socketTimeout a; started := started a;
     closed := closed a; agentIps := agentIps a |}.

Definition set_waiting (l : list Callback) (a : TunnelAgent) : TunnelAgent :=
  {| availableSockets := availableSockets a; waitingCreateConn := l;
     connectedSockets := connectedSockets a; maxTcpSockets := maxTcpSockets a;
     _socketTimeout := _socketTimeout a; started := started a;
     closed := closed a; agentIps := agentIps a |}.

Definition set_connected (n : Z) (a : TunnelAgent) : TunnelAgent :=
  {| availableSockets := availableSockets a;
     waitingCreateConn := waitingCreateConn a;
     connectedSockets := n; maxTcpSockets := maxTcpSockets a;
     _socketTimeout := _socketTimeout a; started := started a;
     closed := closed a; agentIps := agentIps a |}.

Definition set_started (b : bool) (a : TunnelAgent) : TunnelAgent :=
  {| availableSockets := availableSockets a;
     waitingCreateConn := waitingCreateConn a;
     connectedSockets := connectedSockets a; maxTcpSockets := maxTcpSockets a;
     _socketTimeout := _socketTimeout a; started := b;
     closed := closed a; agentIps := agentIps a |}.

Definition set_closed (b : bool) (a : TunnelAgent) : TunnelAgent :=
  {| availableSockets := availableSockets a;
     waitingCreateConn := waitingCreateConn a;
     connectedSockets := connectedSockets a; maxTcpSockets := maxTcpSockets a;
     _socketTimeout := _socketTimeout a; started := started a;
     closed := b; agentIps := agentIps a |}.

Definition set_agentIps (l : list string) (a : TunnelAgent) : TunnelAgent :=
  {| availableSockets := availableSockets a;
     waitingCreateConn := waitingCreateConn a;
     connectedSockets := connectedSockets a; maxTcpSockets := maxTcpSockets a;
     _socketTimeout := _socketTimeout a; started := started a;
     closed := closed a; agentIps := l |}.

Definition set_closeOnce (l : list Socket) (w : World) : World :=
  {| this := this w; closeOnce := l; timers := timers w;
     serverListening := serverListening w; nextSocket := nextSocket w;
     PUBLIC_IP := PUBLIC_IP w; effects := effects w;
     checkedOut := checkedOut w |}.

Definition set_timers (l : list (Callback * Socket)) (w : World) : World :=
  {| this := this w; closeOnce := closeOnce w; timers := l;
     serverListening := serverListening w; nextSocket := nextSocket w;
     PUBLIC_IP := PUBLIC_IP w; effects := effects w;
     checkedOut := checkedOut w |}.

Definition set_listening (b : bool) (w : World) : World :=
  {| this := this w; closeOnce := closeOnce w; timers := timers w;
     serverListening := b; nextSocket := nextSocket w;
     PUBLIC_IP := PUBLIC_IP w; effects := effects w;
     checkedOut := checkedOut w |}.

Definition set_nextSocket (n : nat) (w : World) : World :=
  {| this := this w; closeOnce := closeOnce w; timers := timers w;
     serverListening := serverListening w; nextSocket := n;
     PUBLIC_IP := PUBLIC_IP w; effects := effects w;
     checkedOut := checkedOut w |}.

Definition set_PUBLIC_IP (v : option string) (w : World) : World :=
  {| this := this w; closeOnce := closeOnce w; timers := timers w;
     serverListening := serverListening w; nextSocket := nextSocket w;
     PUBLIC_IP := v; effects := effects w;
     checkedOut := checkedOut w |}.

Definition set_checkedOut (l : list Socket) (w : World) : World :=
  {| this := this w; closeOnce := closeOnce w; timers := timers w;
     serverListening := serverListening w; nextSocket := nextSocket w;
     PUBLIC_IP := PUBLIC_IP w; effects := effects w;
     checkedOut := l |}.

(* ------------------------------------------------------------------ *)
(** ** The methods of [TunnelAgent] *)

Section Agent.
Context `{lib : IpAddrLib}.

(** "check & parse remote ip address": the value of [agentIp] after the
    [if]/[else if]/[else], [None] for [null]. *)
Definition sanitize (ipString : string) : option string :=
  if IPv4_isValid ipString then
    Some ipString
  else if IPv6_isValid ipString then
    match IPv6_parse ipString with
    | Some ip =>
        if isIPv4MappedAddress ip then Some (toIPv4Address_toString ip)
        else Some (toNormalizedString ip)
    | None => None
    end
  else None.

(** "save agent's sanitized IP". *)
Definition save_agentIp (agentIp : option string) (a : TunnelAgent)
  : TunnelAgent :=
  match agentIp with
  | Some ip =>
      if Js.truthy agentIp
         && (Js.indexOf String.eqb ip (agentIps a) =? -1)
      then set_agentIps (Js.push (agentIps a) ip) a
      else a
  | None => a
  end.

(** The listener [_onConnection] arms with [socket.once('close', ...)]. *)
Definition socket_onClose (socket : Socket) (w : World) : World :=
  let w := with_this (fun a => set_connected (connectedSockets a - 1) a) w in
  let idx := Js.indexOf same_socket socket (availableSockets (this w)) in
  let w :=
    if 0 <=? idx
    then with_this
           (fun a => set_available
                       (Js.splice1 (Z.to_nat idx) (availableSockets a)) a) w
    else w in
  (* bookkeeping: a closed socket is with no consumer any more *)
  let w :=
    set_checkedOut
      (filter (fun s => negb (same_socket s socket)) (checkedOut w)) w in
  if connectedSockets (this w) <=? 0 then do [Emit offline] w else w.

(** [_onConnection(socket)].  The [timeout] and [error] listeners it
    arms only call [socket.destroy()]; the runtime answers a destroy
    with the socket's [close], which is where the agent reacts.  The
    listener's return value is dropped by the emitter. *)
Definition _onConnection (socket : Socket) (w : World) : World :=
  let w := do [SetTimeout socket (_socketTimeout (this w))] w in
  if maxTcpSockets (this w) <=? connectedSockets (this w) then
    do [Destroy socket] w
  else
    (* socket.once('close', ...) *)
    let w := set_closeOnce (closeOnce w ++ [socket]) w in
    let w :=
      if connectedSockets (this w) =? 0 then do [Emit online] w else w in
    let agentIp := sanitize (remoteAddress socket) in
    let w := with_this (save_agentIp agentIp) w in
    let w :=
      with_this (fun a => set_connected (connectedSockets a + 1) a) w in
    match Js.shift (waitingCreateConn (this w)) with
    | (Some fn, rest) =>
        let w := with_this (set_waiting rest) w in
        (* setTimeout(() => fn(null, socket), 0) *)
        let w := set_timers (timers w ++ [(fn, socket)]) w in
        (* bookkeeping: the socket is on its way to a consumer *)
        set_checkedOut (checkedOut w ++ [socket]) w
    | (None, _) =>
        with_this
          (fun a => set_available (Js.push (availableSockets a) socket) a) w
    end.

(** [createConnection(options, cb)]; [options] is not read. *)
Definition createConnection (cb : Callback) (w : World) : World :=
  if closed (this w) then
    do [Call cb (Failed "closed")] w
  else
    match Js.shift (availableSockets (this w)) with
    | (None, _) =>
        with_this
          (fun a => set_waiting (Js.push (waitingCreateConn a) cb) a) w
    | (Some sock, rest) =>
        let w := with_this (set_available rest) w in
        let w := do [Call cb (Given sock)] w in
        (* bookkeeping: the socket is with a consumer *)
        set_checkedOut (checkedOut w ++ [sock]) w
    end.

(** [_onClose()]. *)
Definition _onClose (w : World) : World :=
  let w := with_this (set_closed true) w in
  let w :=
    do (map (fun conn => Call conn (Failed "closed"))
            (waitingCreateConn (this w))) w in
  let w := with_this (set_waiting []) w in
  do [Emit end_] w.

(** [destroy()].  [server.close()] makes the listener stop accepting at
    once; its [close] event comes later, from the runtime. *)
Definition destroy (w : World) : World :=
  let w := set_listening false (do [ServerClose] w) in
  do [SuperDestroy] w.

(** [stats()]. *)
Definition stats (w : World) : Z := connectedSockets (this w).

(** *** [listen()] and the public address lookup *)

(** How the [fetch] of the address service ends: the promise rejects, or
    it yields a response whose [text()] yields a body ([None]: [text()]
    rejects). *)
Inductive FetchOutcome : Type :=
| FetchRejected
| FetchResponse (ok : bool) (text : option string).

Inductive Completion (A : Type) : Type :=
| Returned (a : A)
| Thrown.
Arguments Returned {A} a.
Arguments Thrown {A}.

(** [getPublicIPv4()]. *)
Definition getPublicIPv4 (f : FetchOutcome) : Completion (option string) :=
  match f with
  | FetchRejected => Thrown
  | FetchResponse ok text =>
      if negb ok then Returned None
      else match text with
           | Some ip => Returned (Some (Js.trim ip))
           | None => Thrown
           end
  end.

Record Info : Type := mkInfo {
  port : Z;
  publicIp : option string       (* [None]: the property is absent *)
}.

(** What the caller of [listen()] gets. *)
Inductive ListenResult : Type :=
| AlreadyStarted               (* throws Error('already started') *)
| Resolved (info : Info)       (* the promise resolves *)
| NeverSettles.                (* the listen callback rejected before
                                  [resolve(info)]: the promise stays pending *)

(** [listen()], with the port the system binds and the outcome of the
    lookup, should it be made. *)
Definition listen (bound : Z) (f : FetchOutcome) (w : World)
  : World * ListenResult :=
  if started (this w) then (w, AlreadyStarted)
  else
    let w := with_this (set_started true) w in
    let w := set_listening true w in
    let looked :=
      if negb (Js.truthy (PUBLIC_IP w)) then
        match getPublicIPv4 f with
        | Returned v => Returned (set_PUBLIC_IP v w)
        | Thrown => Thrown
        end
      else Returned w in
    match looked with
    | Thrown => (w, NeverSettles)
    | Returned w =>
        let info :=
          {| port := bound;
             publicIp := if Js.truthy (PUBLIC_IP w) then PUBLIC_IP w
                         else None |} in
        (w, Resolved info)
    end.

(* ---------------------------------------------------------------- *)
(** ** The runtime

    What can happen to an agent, one event-loop turn at a time. *)

Inductive Event : Type :=
| Listen (bound : Z) (f : FetchOutcome)   (* agent.listen() *)
| Connection (peer : string)              (* the listener's 'connection' *)
| ServerClosed                            (* the listener's 'close' *)
| SocketClosed (id : nat)                 (* a socket's 'close' *)
| TimerFires                              (* the oldest zero-delay timer *)
| CreateConnection (cb : Callback)        (* agent.createConnection(_, cb) *)
| DestroyAgent.                           (* agent.destroy() *)

Definition has_id (id : nat) (s : Socket) : bool := (sock_id s =? id)%nat.

(** One turn.  The listener's events reach the agent once [listen()] has
    put the listeners on it, and 'connection' only while it accepts;
    every 'connection' brings a socket object of its own; a socket's
    'close' runs the listener armed for it, once. *)
Definition step (e : Event) (w : World) : World :=
  match e with
  | Listen bound f => fst (listen bound f w)
  | Connection peer =>
      if started (this w) && serverListening w then
        let socket := {| sock_id := nextSocket w; remoteAddress := peer |} in
        _onConnection socket (set_nextSocket (S (nextSocket w)) w)
      else w
  | ServerClosed =>
      if started (this w) then _onClose (set_listening false w) else w
  | SocketClosed id =>
      match find (has_id id) (closeOnce w) with
      | Some socket =>
          socket_onClose socket
            (set_closeOnce
               (filter (fun s => negb (has_id id s)) (closeOnce w)) w)
      | None => w
      end
  | TimerFires =>
      match timers w with
      | (fn, socket) :: rest =>
          do [Call fn (Given socket)] (set_timers rest w)
      | [] => w
      end
  | CreateConnection cb => createConnection cb w
  | DestroyAgent => destroy w
  end.

(** A history, oldest event first. *)
Definition run (es : list Event) (w : World) : World :=
  fold_left (fun w e => step e w) es w.

End Agent.

Arguments Returned {A} a.
Arguments Thrown {A}.

(* ------------------------------------------------------------------ *)
(** ** A reference ipaddr

    An instance of the interface for the notations a socket reports as
    its [remoteAddress]: dotted decimal, and colon-separated hexadecimal
    groups with at most one [::] and an optional dotted tail.  It is what
    the examples below run on. *)

Module IpAddrRef.

Local Open Scope N_scope.

Fixpoint split (sep : ascii) (s : string) : list string :=
  match s with
  | EmptyString => [EmptyString]
  | String c rest =>
      if Ascii.eqb c sep then EmptyString :: split sep rest
      else match split sep rest with
           | h :: t => String c h :: t
           | [] => [String c EmptyString]
           end
  end.

Definition digit_of (c : ascii) : option N :=
  let n := N_of_ascii c in
  if (48 <=? n) && (n <=? 57) then Some (n - 48)
  else if (97 <=? n) && (n <=? 102) then Some (n - 87)
  else if (65 <=? n) && (n <=? 70) then Some (n - 55)
  else None.

(** The number a non-empty string of [base] digits writes, if below
    [bound]. *)
Fixpoint number_from (base bound acc : N) (s : string) : option N :=
  match s with
  | EmptyString => Some acc
  | String c rest =>
      match digit_of c with
      | Some d =>
          let acc := acc * base + d in
          if (d <? base) && (acc <? bound) then number_from base bound acc rest
          else None
      | None => None
      end
  end.

Definition number (base bound : N) (s : string) : option N :=
  match s with
  | EmptyString => None
  | _ => number_from base bound 0 s
  end.

Fixpoint numbers (base bound : N) (l : list string) : option (list N) :=
  match l with
  | [] => Some []
  | s :: rest =>
      match number base bound s, numbers base bound rest with
      | Some n, Some ns => Some (n :: ns)
      | _, _ => None
      end
  end.

(** Dotted decimal: four octets. *)
Definition parse4 (s : string) : option (list N) :=
  match numbers 10 256 (split "." s) with
  | Some ([_; _; _; _] as octets) => Some octets
  | _ => None
  end.

(** The 16-bit groups of a run of colon-separated fields; the last field
    may be a dotted quad when [tail] allows it. *)
Fixpoint groups (tail : bool) (l : list string) : option (list N) :=
  match l with
  | [] => Some []
  | [s] =>
      match number 16 65536 s with
      | Some n => Some [n]
      | None =>
          if tail then
            match parse4 s with
            | Some [a; b; c; d] => Some [a * 256 + b; c * 256 + d]
            | _ => None
            end
          else None
      end
  | s :: rest =>
      match number 16 65536 s, groups tail rest with
      | Some n, Some ns => Some (n :: ns)
      | _, _ => None
      end
  end.

Fixpoint break_at_gap (l : list string) : list string * option (list string) :=
  match l with
  | [] => ([], None)
  | EmptyString :: rest => ([], Some rest)
  | s :: rest => let (before, after) := break_at_gap rest in (s :: before, after)
  end.

Definition strip_front (l : list string) : list string * bool :=
  match l with
  | EmptyString :: (EmptyString :: _) as rest => (rest, true)
  | _ => (l, false)
  end.

Definition strip_back (l : list string) : list string * bool :=
  let (r, stripped) := strip_front (rev l) in (rev r, stripped).

(** Colon notation: eight groups. *)
Definition parse6 (s : string) : option (list N) :=
  let (l, lead) := strip_front (split ":" s) in
  let (l, trail) := strip_back l in
  match break_at_gap l with
  | (_, None) =>
      match groups true l with
      | Some gs => if (List.length gs =? 8)%nat then Some gs else None
      | None => None
      end
  | (before, Some after) =>
      let edge_ok :=
        (match before with [] => lead | _ => true end)
        && (match after with [] => trail | _ => true end) in
      match groups false before, groups true after with
      | Some b, Some a =>
          let k := (List.length b + List.length a)%nat in
          if edge_ok && (k <? 8)%nat
          then Some (b ++ repeat 0 (8 - k)%nat ++ a)%list
          else None
      | _, _ => None
      end
  end.

Definition digit_char (d : N) : ascii :=
  ascii_of_N (if d <? 10 then 48 + d else 87 + d).

Fixpoint write_from (fuel : nat) (base n : N) (acc : string) : string :=
  match fuel with
  | O => acc
  | S fuel =>
      let acc := String (digit_char (n mod base)) acc in
      if n / base =? 0 then acc else write_from fuel base (n / base) acc
  end.

(** A number below 2^16 in the given base. *)
Definition write (base n : N) : string := write_from 16 base n EmptyString.

Definition join (sep : string) (l : list string) : string :=
  match l with
  | [] => EmptyString
  | s :: rest => fold_left (fun acc t => String.append acc (String.append sep t)) rest s
  end.

Definition mapped (gs : list N) : bool :=
  match gs with
  | [0; 0; 0; 0; 0; 65535; _; _] => true
  | _ => false
  end.

Definition v4_string (gs : list N) : string :=
  match gs with
  | [_; _; _; _; _; _; hi; lo] =>
      join "." (map (write 10) [hi / 256; hi mod 256; lo / 256; lo mod 256])
  | _ => EmptyString
  end.

Definition normalized (gs : list N) : string := join ":" (map (write 16) gs).

#[export] Instance reference : IpAddrLib := {|
  IPv6 := list N;
  IPv4_isValid := fun s => match parse4 s with Some _ => true | None => false end;
  IPv6_parse := parse6;
  isIPv4MappedAddress := mapped;
  toIPv4Address_toString := v4_string;
  toNormalizedString := normalized
|}.

End IpAddrRef.

(* ------------------------------------------------------------------ *)
(** ** Vocabulary of the properties *)

Definition ids (l : list Socket) : list nat := map sock_id l.

Definition other_than (s : Socket) (t : Socket) : bool :=
  negb (same_socket t s).

Section Vocabulary.
Context `{lib : IpAddrLib}.

(** What every history keeps true of the pool. *)
Record Inv (w : World) : Prop := {
  (** the counter counts the sockets still to close *)
  inv_count :
    connectedSockets (this w) = Z.of_nat (List.length (closeOnce w));
  (** each of them is idle in the pool or with a consumer *)
  inv_where :
    Permutation (ids (availableSockets (this w) ++ checkedOut w))
                (ids (closeOnce w));
  inv_distinct : NoDup (ids (closeOnce w));
  inv_fresh : Forall (fun i => i < nextSocket w)%nat (ids (closeOnce w));
  inv_queues :
    availableSockets (this w) = [] \/ waitingCreateConn (this w) = [];
  (** the pool is kept in order of arrival *)
  inv_order : StronglySorted lt (ids (availableSockets (this w)))
}.

(** The socket objects a run of 'connection' events brings, the first
    one being the [n]-th object the runtime creates. *)
Fixpoint arrivals (n : nat) (peers : list string) : list Socket :=
  match peers with
  | [] => []
  | peer :: rest => {| sock_id := n; remoteAddress := peer |} :: arrivals (S n) rest
  end.

(** A callback receiving a socket. *)
Definition deliver (p : Callback * Socket) : Effect :=
  Call (fst p) (Given (snd p)).

(** A socket has been given to some callback, or a timer is set to do so. *)
Definition handed (w : World) (s : Socket) : Prop :=
  exists cb, In (Call cb (Given s)) (effects w) \/ In (cb, s) (timers w).

(** The third case of [createConnection] read to the letter: a callback
    that had to wait is given the very next socket the agent admits. *)
Definition parked_callback_gets_next_socket : Prop :=
  forall options es cb peer,
    let w := run es (boot options) in
    closed (this w) = false ->
    availableSockets (this w) = [] ->
    started (this w) = true ->
    serverListening w = true ->
    connectedSockets (this w) < maxTcpSockets (this w) ->
    let w1 := createConnection cb w in
    In (cb, {| sock_id := nextSocket w1; remoteAddress := peer |})
       (timers (step (Connection peer) w1)).

(** [destroy()] read as closing the agent on the spot: the very next
    [createConnection] completes with the [closed] error. *)
Definition destroy_fails_callers_at_once : Prop :=
  forall options es cb,
    let w := destroy (run es (boot options)) in
    effects (createConnection cb w) = effects w ++ [Call cb (Failed "closed")].

(** The callbacks a turn appends to the queue, and the hand-offs it sets
    a timer for: what the queue, and the timers, hold beyond what they
    held. *)
Definition parks (e : Event) (w : World) : list Callback :=
  skipn (List.length (waitingCreateConn (this w)))
        (waitingCreateConn (this (step e w))).

Definition hands (e : Event) (w : World) : list (Callback * Socket) :=
  skipn (List.length (timers w)) (timers (step e w)).

(** Over a history: every callback that had to wait, in the order they
    were queued, and every hand-off, in the order they were set. *)
Fixpoint parked (es : list Event) (w : World) : list Callback :=
  match es with
  | [] => []
  | e :: es => parks e w ++ parked es (step e w)
  end.

Fixpoint handed_off (es : list Event) (w : World) : list (Callback * Socket) :=
  match es with
  | [] => []
  | e :: es => hands e w ++ handed_off es (step e w)
  end.

(** What [checkedOut] stands for: the sockets handed to a consumer whose
    [close] is still to come, all of them created by the runtime. *)
Definition Tracked (w : World) : Prop :=
  (forall s, In s (checkedOut w)
             <-> In (sock_id s) (ids (closeOnce w)) /\ handed w s)
  /\ forall s, handed w s -> (sock_id s < nextSocket w)%nat.

End Vocabulary.

(** ** Sample histories

    Small histories on the reference ipaddr, used to run the statements
    below on concrete agents. *)

Module Sample.
Import IpAddrRef.

Definition defaults : Options :=
  {| opt_maxTcpSockets := None; opt_socketTimeout := None |}.

Definition two_sockets : Options :=
  {| opt_maxTcpSockets := Some 2; opt_socketTimeout := None |}.

(** The address service answers with the address and a line feed. *)
Definition answered : FetchOutcome :=
  FetchResponse true (Some (String.append "203.0.113.7" (String (ascii_of_nat 10) EmptyString))).

(** A started agent nobody has dialled yet. *)
Definition listening : World := run [Listen 40000 answered] (boot defaults).

(** A started agent with one callback waiting. *)
Definition one_waiting : World :=
  run [Listen 40000 answered; CreateConnection 1%nat] (boot defaults).

(** A started agent with one idle socket in its pool. *)
Definition one_idle : World :=
  run [Listen 40000 answered; Connection "198.51.100.4"] (boot defaults).

(** A started agent with three idle sockets. *)
Definition three_idle : list Event :=
  [Listen 40000 answered; Connection "198.51.100.4";
   Connection "198.51.100.5"; Connection "198.51.100.6"].

(** A closed agent that still holds an idle socket. *)
Definition closed_with_idle : World :=
  run [Listen 40000 answered; Connection "198.51.100.4"; ServerClosed]
      (boot defaults).

End Sample.

(* ------------------------------------------------------------------ *)
(** ** Vocabulary of the further properties *)

(** The [online] and [offline] events among what was done, in order. *)
Definition presence (done : list Effect) : list AgentEvent :=
  flat_map (fun e => match e with
                     | Emit online => [online]
                     | Emit offline => [offline]
                     | _ => []
                     end) done.

(** [online], [offline], [online], ...: [n] events. *)
Fixpoint alternating (n : nat) : list AgentEvent :=
  match n with
  | O => []
  | S n => alternating n ++ [if Nat.even n then online else offline]
  end.

(** The callbacks a history passes to [createConnection], in order. *)
Definition requested (es : list Event) : list Callback :=
  flat_map (fun e => match e with
                     | CreateConnection cb => [cb]
                     | _ => []
                     end) es.

(** The peers whose 'connection' a history brings, in order. *)
Definition dialled (es : list Event) : list string :=
  flat_map (fun e => match e with
                     | Connection peer => [peer]
                     | _ => []
                     end) es.

(** The callbacks called so far, with an error or with a socket. *)
Definition called (done : list Effect) : list Callback :=
  flat_map (fun e => match e with
                     | Call cb _ => [cb]
                     | _ => []
                     end) done.

(** The sockets given to callbacks so far. *)
Definition given (done : list Effect) : list Socket :=
  flat_map (fun e => match e with
                     | Call _ (Given s) => [s]
                     | _ => []
                     end) done.

(** How often a callback occurs in a list. *)
Definition times (cb : Callback) (l : list Callback) : nat :=
  count_occ Nat.eq_dec l cb.

(** A new agent made later in the process of [w]: it finds the
    module-level [PUBLIC_IP] as [w] left it. *)
Definition next_agent (options : Options) (w : World) : World :=
  set_PUBLIC_IP (PUBLIC_IP w) (boot options).

(** [w] with the parts a turn can write replaced: the pool, the queue,
    the counter, the recorded addresses, [closed], the armed sockets, the
    timers, the listener flag, the next socket identity, what is done in
    addition, and the checked-out sockets. *)
Definition remake (w : World)
    (av : list Socket) (wa : list Callback) (cn : Z) (ips : list string)
    (cl : bool) (co : list Socket) (tm : list (Callback * Socket))
    (li : bool) (nx : nat) (more : list Effect) (out : list Socket) : World :=
  {| this := {| availableSockets := av;
                waitingCreateConn := wa;
                connectedSockets := cn;
                maxTcpSockets := maxTcpSockets (this w);
                _socketTimeout := _socketTimeout (this w);
                started := started (this w);
                closed := cl;
                agentIps := ips |};
     closeOnce := co;
     timers := tm;
     serverListening := li;
     nextSocket := nx;
     PUBLIC_IP := PUBLIC_IP w;
     effects := effects w ++ more;
     checkedOut := out |}.

(** Two worlds with the same pool, queue, counter, addresses, [closed]
    flag, armed sockets, timers, next socket and checked-out sockets. *)
Definition same_pool (w w' : World) : Prop :=
  availableSockets (this w') = availableSockets (this w)
  /\ waitingCreateConn (this w') = waitingCreateConn (this w)
  /\ connectedSockets (this w') = connectedSockets (this w)
  /\ agentIps (this w') = agentIps (this w)
  /\ closed (this w') = closed (this w)
  /\ maxTcpSockets (this w') = maxTcpSockets (this w)
  /\ closeOnce w' = closeOnce w
  /\ timers w' = timers w
  /\ nextSocket w' = nextSocket w
  /\ checkedOut w' = checkedOut w.

Section Turns.
Context `{lib : IpAddrLib}.

(** The kinds of turn: what an event finds and what it leaves. *)
Inductive Turn (w : World) : Event -> World -> Prop :=
| turn_quiet e w' more :
    requested [e] = [] ->
    same_pool w w' ->
    effects w' = effects w ++ more ->
    more = [] \/ more = [ServerClose; SuperDestroy] ->
    Turn w e w'
| turn_rejected peer :
    let s := {| sock_id := nextSocket w; remoteAddress := peer |} in
    maxTcpSockets (this w) <= connectedSockets (this w) ->
    Turn w (Connection peer)
      (remake w (availableSockets (this w)) (waitingCreateConn (this w))
         (connectedSockets (this w)) (agentIps (this w)) (closed (this w))
         (closeOnce w) (timers w) (serverListening w) (S (nextSocket w))
         [SetTimeout s (_socketTimeout (this w)); Destroy s]
         (checkedOut w))
| turn_pooled peer :
    let s := {| sock_id := nextSocket w; remoteAddress := peer |} in
    connectedSockets (this w) < maxTcpSockets (this w) ->
    waitingCreateConn (this w) = [] ->
    Turn w (Connection peer)
      (remake w (availableSockets (this w) ++ [s]) []
         (connectedSockets (this w) + 1)
         (agentIps (save_agentIp (sanitize peer) (this w)))
         (closed (this w))
         (closeOnce w ++ [s]) (timers w) (serverListening w)
         (S (nextSocket w))
         (SetTimeout s (_socketTimeout (this w))
            :: (if connectedSockets (this w) =? 0 then [Emit online] else []))
         (checkedOut w))
| turn_handed peer fn rest :
    let s := {| sock_id := nextSocket w; remoteAddress := peer |} in
    connectedSockets (this w) < maxTcpSockets (this w) ->
    waitingCreateConn (this w) = fn :: rest ->
    Turn w (Connection peer)
      (remake w (availableSockets (this w)) rest
         (connectedSockets (this w) + 1)
         (agentIps (save_agentIp (sanitize peer) (this w)))
         (closed (this w))
         (closeOnce w ++ [s]) (timers w ++ [(fn, s)]) (serverListening w)
         (S (nextSocket w))
         (SetTimeout s (_socketTimeout (this w))
            :: (if connectedSockets (this w) =? 0 then [Emit online] else []))
         (checkedOut w ++ [s]))
| turn_flushed :
    Turn w ServerClosed
      (remake w (availableSockets (this w)) []
         (connectedSockets (this w)) (agentIps (this w)) true
         (closeOnce w) (timers w) false (nextSocket w)
         (map (fun conn => Call conn (Failed "closed"))
              (waitingCreateConn (this w)) ++ [Emit end_])
         (checkedOut w))
| turn_gone id s :
    find (has_id id) (closeOnce w) = Some s ->
    Turn w (SocketClosed id)
      (remake w
         (if 0 <=? Js.indexOf same_socket s (availableSockets (this w))
          then Js.splice1
                 (Z.to_nat (Js.indexOf same_socket s (availableSockets (this w))))
                 (availableSockets (this w))
          else availableSockets (this w))
         (waitingCreateConn (this w))
         (connectedSockets (this w) - 1) (agentIps (this w)) (closed (this w))
         (filter (other_than s) (closeOnce w)) (timers w) (serverListening w)
         (nextSocket w)
         (if connectedSockets (this w) - 1 <=? 0 then [Emit offline] else [])
         (filter (other_than s) (checkedOut w)))
| turn_fired fn s rest :
    timers w = (fn, s) :: rest ->
    Turn w TimerFires
      (remake w (availableSockets (this w)) (waitingCreateConn (this w))
         (connectedSockets (this w)) (agentIps (this w)) (closed (this w))
         (closeOnce w) rest (serverListening w) (nextSocket w)
         [Call fn (Given s)] (checkedOut w))
| turn_failed cb :
    closed (this w) = true ->
    Turn w (CreateConnection cb)
      (remake w (availableSockets (this w)) (waitingCreateConn (this w))
         (connectedSockets (this w)) (agentIps (this w)) (closed (this w))
         (closeOnce w) (timers w) (serverListening w) (nextSocket w)
         [Call cb (Failed "closed")] (checkedOut w))
| turn_parked cb :
    closed (this w) = false ->
    availableSockets (this w) = [] ->
    Turn w (CreateConnection cb)
      (remake w [] (waitingCreateConn (this w) ++ [cb])
         (connectedSockets (this w)) (agentIps (this w)) (closed (this w))
         (closeOnce w) (timers w) (serverListening w) (nextSocket w)
         [] (checkedOut w))
| turn_served cb sock rest :
    closed (this w) = false ->
    availableSockets (this w) = sock :: rest ->
    Turn w (CreateConnection cb)
      (remake w rest (waitingCreateConn (this w))
         (connectedSockets (this w)) (agentIps (this w)) (closed (this w))
         (closeOnce w) (timers w) (serverListening w) (nextSocket w)
         [Call cb (Given sock)] (checkedOut w ++ [sock])).

End Turns.

(** A closed comparison, settled by running both sides. *)
Ltac computed := vm_compute; first [congruence | lia].

(** Case analysis on the two-way tests and matches a goal branches on. *)
Ltac split_ifs :=
  repeat match goal with
         | |- context [if ?c then _ else _] => destruct c; cbn
         end.

(* ================================================================== *)
(** * Properties *)

(** ** Arrays *)

Lemma indexOf_lower {A} (same : A -> A -> bool) x (a : list A) :
  -1 <= Js.indexOf same x a.
Proof.
  induction a as [|y a IH]; simpl; [lia|].
  destruct (same y x); [lia|].
  destruct (Js.indexOf same x a <? 0) eqn:E; [lia|].
  apply Z.ltb_ge in E. lia.
Qed.

Lemma indexOf_absent {A} (same : A -> A -> bool) x (a : list A) :
  Js.indexOf same x a < 0 <-> forall y, In y a -> same y x = false.
Proof.
  induction a as [|y a IH]; simpl.
  - split; [intros _ z []|lia].
  - destruct (same y x) eqn:S.
    + split; [lia|]. intros H. rewrite (H y) in S by now left. discriminate.
    + destruct (Js.indexOf same x a <? 0) eqn:E.
      * apply Z.ltb_lt in E. split; [|lia].
        intros _ z [<-|Hz]; [assumption|]. now apply IH.
      * apply Z.ltb_ge in E. split; [lia|].
        intros H. assert (Js.indexOf same x a < 0); [|lia].
        apply IH. intros z Hz. apply H. now right.
Qed.

Lemma filter_keeps_all {A} (p : A -> bool) (l : list A) :
  (forall x, In x l -> p x = true) -> filter p l = l.
Proof.
  induction l as [|y l IH]; simpl; intros H; [reflexivity|].
  rewrite (H y) by now left. f_equal. apply IH. intros x Hx. apply H. now right.
Qed.

(** On an array without repeated objects, removing the object at its
    [indexOf] keeps exactly the other objects. *)
Lemma splice_indexOf (s : Socket) (l : list Socket) :
  NoDup (ids l) ->
  (if 0 <=? Js.indexOf same_socket s l
   then Js.splice1 (Z.to_nat (Js.indexOf same_socket s l)) l
   else l) = filter (other_than s) l.
Proof.
  induction l as [|y l IH]; intros ND; [reflexivity|].
  inversion ND as [|? ? Hy ND']; subst. specialize (IH ND').
  simpl. unfold other_than at 1.
  destruct (same_socket y s) eqn:Same; simpl.
  - symmetry. apply filter_keeps_all. intros x Hx. unfold other_than, same_socket.
    unfold same_socket in Same. apply Nat.eqb_eq in Same.
    destruct (sock_id x =? sock_id s)%nat eqn:E; [|reflexivity].
    apply Nat.eqb_eq in E. exfalso. apply Hy. rewrite Same, <- E.
    now apply in_map.
  - pose proof (indexOf_lower same_socket s l) as L.
    destruct (Js.indexOf same_socket s l <? 0) eqn:E; simpl.
    + apply Z.ltb_lt in E.
      destruct (0 <=? Js.indexOf same_socket s l) eqn:F;
        [apply Z.leb_le in F; lia|].
      now rewrite <- IH.
    + apply Z.ltb_ge in E.
      destruct (0 <=? Js.indexOf same_socket s l + 1) eqn:F;
        [|apply Z.leb_gt in F; lia].
      replace (Z.to_nat (Js.indexOf same_socket s l + 1))
        with (S (Z.to_nat (Js.indexOf same_socket s l))) by lia.
      simpl. f_equal.
      destruct (0 <=? Js.indexOf same_socket s l) eqn:G;
        [assumption|apply Z.leb_gt in G; lia].
Qed.

Lemma ids_filter (s : Socket) (l : list Socket) :
  ids (filter (other_than s) l)
  = filter (fun j => negb (j =? sock_id s)%nat) (ids l).
Proof.
  induction l as [|y l IH]; simpl; [reflexivity|].
  unfold other_than at 1, same_socket.
  destruct (sock_id y =? sock_id s)%nat; simpl; now rewrite IH.
Qed.

Lemma Permutation_filter' {A} (p : A -> bool) (l l' : list A) :
  Permutation l l' -> Permutation (filter p l) (filter p l').
Proof.
  induction 1; simpl.
  - constructor.
  - destruct (p x); [now constructor|assumption].
  - destruct (p x), (p y); try reflexivity. apply perm_swap.
  - etransitivity; eassumption.
Qed.

Lemma filter_out_length (i : nat) (l : list nat) :
  NoDup l -> In i l ->
  S (List.length (filter (fun j => negb (j =? i)%nat) l)) = List.length l.
Proof.
  induction l as [|y l IH]; intros ND Hin; [destruct Hin|].
  inversion ND as [|? ? Hy ND']; subst. simpl.
  destruct (y =? i)%nat eqn:E; simpl.
  - apply Nat.eqb_eq in E. subst y. f_equal. f_equal.
    apply filter_keeps_all. intros x Hx.
    destruct (x =? i)%nat eqn:F; [|reflexivity].
    apply Nat.eqb_eq in F. now subst.
  - f_equal. apply IH; [assumption|].
    destruct Hin as [->|Hin]; [|assumption].
    rewrite Nat.eqb_refl in E. discriminate.
Qed.

Lemma sorted_filter (p : nat -> bool) (l : list nat) :
  StronglySorted lt l -> StronglySorted lt (filter p l).
Proof.
  induction 1 as [|x l S IH F]; simpl; [constructor|].
  destruct (p x); [|assumption].
  constructor; [assumption|].
  rewrite Forall_forall in *. intros y Hy. apply F.
  apply filter_In in Hy. tauto.
Qed.

Lemma sorted_push (x : nat) (l : list nat) :
  StronglySorted lt l -> Forall (fun y => y < x)%nat l ->
  StronglySorted lt (l ++ [x]).
Proof.
  induction 1 as [|y l S IH F]; simpl; intros B.
  - repeat constructor.
  - inversion B; subst. constructor; [now apply IH|].
    apply Forall_app. split; [assumption|]. now repeat constructor.
Qed.

Lemma sorted_tail (x : nat) (l : list nat) :
  StronglySorted lt (x :: l) -> StronglySorted lt l.
Proof. now inversion 1. Qed.

Lemma find_has_id (i : nat) (l : list Socket) (s : Socket) :
  find (has_id i) l = Some s -> In s l /\ sock_id s = i.
Proof.
  intros H. apply find_some in H. destruct H as [H E].
  split; [assumption|]. now apply Nat.eqb_eq in E.
Qed.

(** ** The pool invariant *)

Section Invariant.
Context `{lib : IpAddrLib}.

Lemma Inv_boot options : Inv (boot options).
Proof.
  split; simpl; try constructor. reflexivity.
Qed.

Lemma Inv_pool_distinct w :
  Inv w -> NoDup (ids (availableSockets (this w) ++ checkedOut w)).
Proof.
  intros I. eapply Permutation_NoDup; [symmetry; apply I|apply I].
Qed.

Lemma Inv_pool_fresh w s :
  Inv w -> In s (availableSockets (this w) ++ checkedOut w) ->
  (sock_id s < nextSocket w)%nat.
Proof.
  intros I Hs. pose proof (inv_fresh w I) as F.
  rewrite Forall_forall in F. apply F.
  eapply Permutation_in; [apply I|]. now apply in_map.
Qed.

(** *** What one admission does, field by field *)

Lemma onConnection_over s w :
  maxTcpSockets (this w) <= connectedSockets (this w) ->
  _onConnection s w
  = do [Destroy s] (do [SetTimeout s (_socketTimeout (this w))] w).
Proof.
  intros H. apply Z.leb_le in H. unfold _onConnection.
  cbn [this do]. now rewrite H.
Qed.

Lemma onConnection_admitted s w :
  connectedSockets (this w) < maxTcpSockets (this w) ->
  let w' := _onConnection s w in
  availableSockets (this w')
  = match waitingCreateConn (this w) with
    | [] => availableSockets (this w) ++ [s]
    | _ :: _ => availableSockets (this w)
    end
  /\ waitingCreateConn (this w') = tl (waitingCreateConn (this w))
  /\ connectedSockets (this w') = connectedSockets (this w) + 1
  /\ closeOnce w' = closeOnce w ++ [s]
  /\ checkedOut w'
     = match waitingCreateConn (this w) with
       | [] => checkedOut w
       | _ :: _ => checkedOut w ++ [s]
       end
  /\ timers w'
     = match waitingCreateConn (this w) with
       | [] => timers w
       | fn :: _ => timers w ++ [(fn, s)]
       end
  /\ agentIps (this w')
     = agentIps (save_agentIp (sanitize (remoteAddress s)) (this w))
  /\ effects w'
     = effects w ++ SetTimeout s (_socketTimeout (this w))
         :: (if connectedSockets (this w) =? 0 then [Emit online] else [])
  /\ nextSocket w' = nextSocket w
  /\ maxTcpSockets (this w') = maxTcpSockets (this w)
  /\ closed (this w') = closed (this w)
  /\ started (this w') = started (this w)
  /\ serverListening w' = serverListening w.
Proof.
  intros H. apply Z.leb_gt in H. unfold _onConnection.
  cbn [this do]. rewrite H.
  remember (sanitize (remoteAddress s)) as agentIp.
  destruct w as [[av wa cn mx tmo st cl ips] co tm li nx pip ef out].
  cbn in *. unfold save_agentIp.
  destruct agentIp as [ip|]; cbn; split_ifs; repeat split;
    rewrite <- ?app_assoc; reflexivity.
Qed.

(** *** What a socket's [close] does *)

Lemma socket_onClose_fields s w :
  let w' := socket_onClose s w in
  availableSockets (this w')
  = (if 0 <=? Js.indexOf same_socket s (availableSockets (this w))
     then Js.splice1
            (Z.to_nat (Js.indexOf same_socket s (availableSockets (this w))))
            (availableSockets (this w))
     else availableSockets (this w))
  /\ waitingCreateConn (this w') = waitingCreateConn (this w)
  /\ connectedSockets (this w') = connectedSockets (this w) - 1
  /\ closeOnce w' = closeOnce w
  /\ checkedOut w' = filter (other_than s) (checkedOut w)
  /\ timers w' = timers w
  /\ agentIps (this w') = agentIps (this w)
  /\ effects w'
     = effects w
       ++ (if connectedSockets (this w) - 1 <=? 0 then [Emit offline] else [])
  /\ nextSocket w' = nextSocket w
  /\ maxTcpSockets (this w') = maxTcpSockets (this w)
  /\ closed (this w') = closed (this w)
  /\ started (this w') = started (this w)
  /\ serverListening w' = serverListening w.
Proof.
  unfold socket_onClose.
  destruct w as [[av wa cn mx tmo st cl ips] co tm li nx pip ef out].
  cbn [this with_this set_connected set_available set_checkedOut do
       availableSockets waitingCreateConn connectedSockets closeOnce
       checkedOut timers agentIps effects nextSocket maxTcpSockets closed
       started serverListening].
  unfold other_than.
  destruct (0 <=? Js.indexOf same_socket s av);
    cbn [this with_this set_connected set_available set_checkedOut do
         availableSockets waitingCreateConn connectedSockets closeOnce
         checkedOut timers agentIps effects nextSocket maxTcpSockets closed
         started serverListening];
    destruct (cn - 1 <=? 0); cbn; repeat split;
    rewrite ?app_nil_r; reflexivity.
Qed.

(** *** What [createConnection] does *)

Lemma createConnection_closed cb w :
  closed (this w) = true ->
  createConnection cb w = do [Call cb (Failed "closed")] w.
Proof. intros H. unfold createConnection. now rewrite H. Qed.

Lemma createConnection_open cb w :
  closed (this w) = false ->
  let w' := createConnection cb w in
  availableSockets (this w') = tl (availableSockets (this w))
  /\ waitingCreateConn (this w')
     = match availableSockets (this w) with
       | [] => waitingCreateConn (this w) ++ [cb]
       | _ :: _ => waitingCreateConn (this w)
       end
  /\ connectedSockets (this w') = connectedSockets (this w)
  /\ closeOnce w' = closeOnce w
  /\ checkedOut w'
     = match availableSockets (this w) with
       | [] => checkedOut w
       | sock :: _ => checkedOut w ++ [sock]
       end
  /\ timers w' = timers w
  /\ agentIps (this w') = agentIps (this w)
  /\ effects w'
     = match availableSockets (this w) with
       | [] => effects w
       | sock :: _ => effects w ++ [Call cb (Given sock)]
       end
  /\ nextSocket w' = nextSocket w
  /\ maxTcpSockets (this w') = maxTcpSockets (this w)
  /\ closed (this w') = closed (this w)
  /\ started (this w') = started (this w)
  /\ serverListening w' = serverListening w.
Proof.
  destruct w as [[av wa cn mx tmo st cl ips] co tm li nx pip ef out].
  cbn. intros ->. unfold createConnection.
  cbn. destruct av; cbn; repeat split; reflexivity.
Qed.

(** *** What [listen] does to the world *)

Lemma listen_fields bound f w :
  let w' := fst (listen bound f w) in
  availableSockets (this w') = availableSockets (this w)
  /\ waitingCreateConn (this w') = waitingCreateConn (this w)
  /\ connectedSockets (this w') = connectedSockets (this w)
  /\ closeOnce w' = closeOnce w
  /\ checkedOut w' = checkedOut w
  /\ timers w' = timers w
  /\ agentIps (this w') = agentIps (this w)
  /\ effects w' = effects w
  /\ nextSocket w' = nextSocket w
  /\ maxTcpSockets (this w') = maxTcpSockets (this w)
  /\ closed (this w') = closed (this w)
  /\ started (this w') = true
  /\ (started (this w) = true -> w' = w).
Proof.
  unfold listen.
  destruct w as [[av wa cn mx tmo st cl ips] co tm li nx pip ef out].
  cbn. destruct st; cbn; [repeat split; reflexivity|].
  destruct (negb (Js.truthy pip)); cbn;
    [destruct (getPublicIPv4 f); cbn|];
    repeat split; try reflexivity; discriminate.
Qed.

(** *** The invariant is kept *)

Lemma Inv_same w w' :
  availableSockets (this w') = availableSockets (this w) ->
  waitingCreateConn (this w') = waitingCreateConn (this w) ->
  connectedSockets (this w') = connectedSockets (this w) ->
  closeOnce w' = closeOnce w ->
  checkedOut w' = checkedOut w ->
  nextSocket w' = nextSocket w ->
  Inv w -> Inv w'.
Proof.
  intros Ea Ew Ec El Eo En [C P D F Q O].
  split; rewrite ?Ea, ?Ew, ?Ec, ?El, ?Eo, ?En; assumption.
Qed.

Lemma Inv_onConnection w peer :
  Inv w ->
  Inv (_onConnection {| sock_id := nextSocket w; remoteAddress := peer |}
                     (set_nextSocket (S (nextSocket w)) w)).
Proof.
  intros I. pose proof I as [C P D F Q O].
  set (s := {| sock_id := nextSocket w; remoteAddress := peer |}).
  set (w0 := set_nextSocket (S (nextSocket w)) w).
  assert (Fr : ~ In (nextSocket w) (ids (closeOnce w))).
  { intros Hin. rewrite Forall_forall in F. apply F in Hin. lia. }
  assert (F' : Forall (fun i => i < S (nextSocket w))%nat (ids (closeOnce w))).
  { eapply Forall_impl; [|exact F]. simpl. lia. }
  destruct (Z_lt_le_dec (connectedSockets (this w0)) (maxTcpSockets (this w0)))
    as [Adm|Over].
  2:{ rewrite (onConnection_over s w0 Over). split; assumption. }
  destruct (onConnection_admitted s w0 Adm)
    as (Ea & Ew & Ec & El & Eo & _ & _ & _ & En & _).
  split; rewrite ?Ea, ?Ew, ?Ec, ?El, ?Eo, ?En; cbn [w0 this set_nextSocket
    closeOnce checkedOut nextSocket].
  - rewrite C, length_app. simpl. lia.
  - unfold ids. destruct (waitingCreateConn (this w)).
    + rewrite !map_app, <- app_assoc. simpl.
      etransitivity; [apply Permutation_app_head, Permutation_cons_append|].
      rewrite app_assoc. apply Permutation_app_tail.
      rewrite <- map_app. exact P.
    + rewrite app_assoc, !map_app. simpl.
      apply Permutation_app_tail. rewrite <- map_app. exact P.
  - unfold ids. rewrite map_app. simpl.
    apply NoDup_app; [assumption|repeat constructor; auto|].
    intros x Hx [<-|[]]. now apply Fr.
  - unfold ids. rewrite map_app. apply Forall_app. split; [exact F'|].
    repeat constructor.
  - destruct (waitingCreateConn (this w)); [now right|].
    left. destruct Q as [Q|Q]; [assumption|discriminate].
  - destruct (waitingCreateConn (this w)); [|assumption].
    unfold ids. rewrite map_app. simpl.
    apply sorted_push; [assumption|].
    apply Forall_forall. intros i Hi. apply in_map_iff in Hi.
    destruct Hi as (t & <- & Ht). apply (Inv_pool_fresh w t I).
    apply in_or_app. now left.
Qed.

Lemma Inv_createConnection w cb : Inv w -> Inv (createConnection cb w).
Proof.
  intros I. destruct (closed (this w)) eqn:Cl.
  { rewrite (createConnection_closed cb w Cl).
    revert I. now apply Inv_same. }
  pose proof I as [C P D F Q O].
  destruct (createConnection_open cb w Cl)
    as (Ea & Ew & Ec & El & Eo & _ & _ & _ & En & _).
  split; rewrite ?Ea, ?Ew, ?Ec, ?El, ?Eo, ?En; try assumption.
  - destruct (availableSockets (this w)) as [|sock rest]; [assumption|].
    cbn [tl]. etransitivity; [|exact P]. unfold ids. rewrite !map_app.
    simpl. rewrite app_assoc. symmetry. apply Permutation_cons_append.
  - destruct (availableSockets (this w)) as [|sock rest]; [now left|].
    right. destruct Q as [Q|Q]; [discriminate|assumption].
  - destruct (availableSockets (this w)) as [|sock rest]; [assumption|].
    now apply sorted_tail in O.
Qed.

Lemma Inv_onClose w : Inv w -> Inv (_onClose w).
Proof.
  intros [C P D F Q O]. split; try assumption. now right.
Qed.

Lemma Inv_socketClosed w id : Inv w -> Inv (step (SocketClosed id) w).
Proof.
  intros I. pose proof I as [C P D F Q O]. cbn [step].
  destruct (find (has_id id) (closeOnce w)) as [s|] eqn:Fd; [|assumption].
  apply find_has_id in Fd. destruct Fd as [Hin Hid].
  assert (E0 : filter (fun t => negb (has_id id t)) (closeOnce w)
               = filter (other_than s) (closeOnce w)).
  { apply filter_ext. intros t.
    unfold other_than, same_socket, has_id. now rewrite Hid. }
  rewrite E0.
  destruct (socket_onClose_fields s
              (set_closeOnce (filter (other_than s) (closeOnce w)) w))
    as (Ea & Ew & Ec & El & Eo & _ & _ & _ & En & _).
  cbn [this set_closeOnce closeOnce checkedOut nextSocket]
    in Ea, Ew, Ec, El, Eo, En.
  pose proof (Inv_pool_distinct w I) as NDp.
  assert (NDa : NoDup (ids (availableSockets (this w)))).
  { unfold ids in NDp. rewrite map_app in NDp.
    now apply NoDup_app_remove_r in NDp. }
  rewrite (splice_indexOf s _ NDa) in Ea.
  split; rewrite ?Ea, ?Ew, ?Ec, ?El, ?Eo, ?En.
  - assert (L := filter_out_length (sock_id s) (ids (closeOnce w)) D
                   (in_map sock_id _ _ Hin)).
    rewrite <- ids_filter in L. unfold ids in L. rewrite !length_map in L.
    rewrite C. lia.
  - rewrite <- filter_app, !ids_filter. now apply Permutation_filter'.
  - rewrite ids_filter. now apply NoDup_filter.
  - rewrite ids_filter. apply Forall_forall. intros i Hi.
    apply filter_In in Hi. rewrite Forall_forall in F. apply F, Hi.
  - destruct Q as [Q|Q]; [left; now rewrite Q|now right].
  - rewrite ids_filter. now apply sorted_filter.
Qed.

Lemma Inv_step e w : Inv w -> Inv (step e w).
Proof.
  intros I. destruct e as [bound f|peer| |id| |cb|].
  - destruct (listen_fields bound f w)
      as (Ea & Ew & Ec & El & Eo & _ & _ & _ & En & _).
    revert I. now apply Inv_same.
  - cbn [step]. destruct (started (this w) && serverListening w);
      [now apply Inv_onConnection|assumption].
  - cbn [step]. destruct (started (this w)); [|assumption].
    apply Inv_onClose. revert I. now apply Inv_same.
  - now apply Inv_socketClosed.
  - cbn [step]. destruct (timers w) as [|[fn socket] rest]; [assumption|].
    revert I. now apply Inv_same.
  - now apply Inv_createConnection.
  - revert I. now apply Inv_same.
Qed.

Lemma run_cons e es w : run (e :: es) w = run es (step e w).
Proof. reflexivity. Qed.

Lemma run_snoc es e w : run (es ++ [e]) w = step e (run es w).
Proof. unfold run. now rewrite fold_left_app. Qed.

Lemma run_app es es' w : run (es ++ es') w = run es' (run es w).
Proof. unfold run. now rewrite fold_left_app. Qed.

Lemma Inv_run es w : Inv w -> Inv (run es w).
Proof.
  revert w. induction es as [|e es IH]; intros w I; [assumption|].
  apply IH. now apply Inv_step.
Qed.
End Invariant.

(** ** The ceiling *)

Section Ceiling.
Context `{lib : IpAddrLib}.

Lemma step_maxTcpSockets e w :
  maxTcpSockets (this (step e w)) = maxTcpSockets (this w).
Proof.
  destruct e as [bound f|peer| |id| |cb|]; cbn [step].
  - apply (listen_fields bound f w).
  - destruct (started (this w) && serverListening w); [|reflexivity].
    set (s := mkSocket _ _). set (w0 := set_nextSocket _ w).
    destruct (Z_lt_le_dec (connectedSockets (this w0)) (maxTcpSockets (this w0)))
      as [Adm|Over].
    + apply (onConnection_admitted s w0 Adm).
    + now rewrite (onConnection_over s w0 Over).
  - now destruct (started (this w)).
  - destruct (find (has_id id) (closeOnce w)) as [s|]; [|reflexivity].
    set (w0 := set_closeOnce _ w). change (this w) with (this w0).
    apply (socket_onClose_fields s w0).
  - now destruct (timers w) as [|[fn socket] rest].
  - destruct (closed (this w)) eqn:Cl.
    + now rewrite (createConnection_closed cb w Cl).
    + apply (createConnection_open cb w Cl).
  - reflexivity.
Qed.

Lemma run_maxTcpSockets es w :
  maxTcpSockets (this (run es w)) = maxTcpSockets (this w).
Proof.
  revert w. induction es as [|e es IH]; intros w; [reflexivity|].
  simpl. rewrite IH. apply step_maxTcpSockets.
Qed.


End Ceiling.

(** ** Runs of one kind of event *)

Section Runs.
Context `{lib : IpAddrLib}.

(** Sockets arriving while callbacks wait, within the ceiling: each goes,
    by a timer, to the callback at the head of the queue. *)
Lemma connections_serve_waiters peers : forall w,
  started (this w) = true ->
  serverListening w = true ->
  connectedSockets (this w) + Z.of_nat (List.length peers)
  <= maxTcpSockets (this w) ->
  (List.length peers <= List.length (waitingCreateConn (this w)))%nat ->
  let w' := run (map Connection peers) w in
  waitingCreateConn (this w')
  = skipn (List.length peers) (waitingCreateConn (this w))
  /\ timers w'
     = timers w
       ++ combine (waitingCreateConn (this w)) (arrivals (nextSocket w) peers)
  /\ availableSockets (this w') = availableSockets (this w)
  /\ connectedSockets (this w')
     = connectedSockets (this w) + Z.of_nat (List.length peers)
  /\ nextSocket w' = (nextSocket w + List.length peers)%nat
  /\ closed (this w') = closed (this w).
Proof.
  induction peers as [|peer peers IH]; intros w St Li Bud Len w'.
  { subst w'. cbn. rewrite combine_nil, app_nil_r, Z.add_0_r, Nat.add_0_r.
    repeat split; reflexivity. }
  subst w'. cbn [map]. rewrite run_cons.
  cbn [step]. rewrite St, Li. cbn [andb].
  set (s := mkSocket (nextSocket w) peer).
  set (w0 := set_nextSocket (S (nextSocket w)) w).
  cbn [List.length] in Bud, Len.
  assert (Adm : connectedSockets (this w0) < maxTcpSockets (this w0))
    by (cbn; lia).
  destruct (onConnection_admitted s w0 Adm)
    as (Ea & Ew & Ec & _ & _ & Et & _ & _ & En & Em & Ecl & Est & Eli).
  cbn [w0 this set_nextSocket nextSocket timers serverListening]
    in Ea, Ew, Ec, Et, En, Em, Ecl, Est, Eli.
  destruct (waitingCreateConn (this w)) as [|fn rest] eqn:W;
    [cbn in Len; lia|].
  cbn [tl List.length] in *.
  destruct (IH (_onConnection s w0)) as (Iw & It & Ia & Ic & In' & Icl).
  - now rewrite Est.
  - now rewrite Eli.
  - rewrite Ec, Em. lia.
  - rewrite Ew. lia.
  - rewrite Iw, It, Ia, Ic, In', Icl, Ew, Et, Ea, Ec, En, Ecl.
    cbn [skipn arrivals combine]. rewrite <- app_assoc.
    repeat split; try reflexivity; lia.
Qed.

(** Checkouts while the pool holds sockets: each takes the head. *)
Lemma checkouts_take_heads cbs : forall w,
  closed (this w) = false ->
  (List.length cbs <= List.length (availableSockets (this w)))%nat ->
  let w' := run (map CreateConnection cbs) w in
  availableSockets (this w')
  = skipn (List.length cbs) (availableSockets (this w))
  /\ effects w'
     = effects w ++ map deliver (combine cbs (availableSockets (this w)))
  /\ waitingCreateConn (this w') = waitingCreateConn (this w).
Proof.
  induction cbs as [|cb cbs IH]; intros w Cl Len w'.
  { subst w'. cbn. rewrite app_nil_r. repeat split; reflexivity. }
  subst w'. cbn [map]. rewrite run_cons.
  cbn [step].
  destruct (createConnection_open cb w Cl)
    as (Ea & Ew & _ & _ & _ & _ & _ & Ee & _ & _ & Ecl & _).
  destruct (availableSockets (this w)) as [|sock rest] eqn:A;
    [cbn in Len; lia|].
  cbn [tl List.length] in *.
  destruct (IH (createConnection cb w)) as (Ia & Ie & Iw).
  - now rewrite Ecl.
  - rewrite Ea. lia.
  - rewrite Ia, Ie, Iw, Ea, Ee, Ew. cbn [skipn combine map].
    rewrite <- app_assoc. repeat split; reflexivity.
Qed.

(** Checkouts on an empty pool: each joins the end of the queue. *)
Lemma checkouts_queue_up cbs : forall w,
  closed (this w) = false ->
  availableSockets (this w) = [] ->
  let w' := run (map CreateConnection cbs) w in
  waitingCreateConn (this w') = waitingCreateConn (this w) ++ cbs
  /\ availableSockets (this w') = []
  /\ effects w' = effects w
  /\ timers w' = timers w
  /\ connectedSockets (this w') = connectedSockets (this w)
  /\ maxTcpSockets (this w') = maxTcpSockets (this w)
  /\ nextSocket w' = nextSocket w
  /\ closed (this w') = false
  /\ started (this w') = started (this w)
  /\ serverListening w' = serverListening w.
Proof.
  induction cbs as [|cb cbs IH]; intros w Cl A w'.
  { subst w'. cbn. rewrite app_nil_r. repeat split; assumption. }
  subst w'. cbn [map]. rewrite run_cons.
  cbn [step].
  destruct (createConnection_open cb w Cl)
    as (Ea & Ew & Ec & _ & _ & Et & _ & Ee & En & Em & Ecl & Est & Eli).
  rewrite A in *. cbn [tl] in *.
  destruct (IH (createConnection cb w))
    as (Iw & Ia & Ie & It & Ic & Im & In' & Icl & Ist & Ili).
  - now rewrite Ecl.
  - assumption.
  - rewrite Iw, Ia, Ie, It, Ic, Im, In', Icl, Ist, Ili.
    rewrite Ew, Ee, Et, Ec, Em, En, Est, Eli, <- app_assoc.
    repeat split; reflexivity.
Qed.

(** The pending timers, fired one after the other, call in the order they
    were set. *)
Lemma timers_fire_in_order tm : forall w,
  timers w = tm ->
  let w' := run (repeat TimerFires (List.length tm)) w in
  effects w' = effects w ++ map deliver tm
  /\ timers w' = []
  /\ this w' = this w.
Proof.
  induction tm as [|[fn s] tm IH]; intros w E w'.
  { subst w'. cbn. rewrite app_nil_r. auto. }
  subst w'. cbn [List.length repeat]. rewrite run_cons.
  cbn [step]. rewrite E.
  destruct (IH (do [Call fn (Given s)] (set_timers tm w)) eq_refl)
    as (Ie & It & Ia).
  rewrite Ie, It, Ia. cbn. rewrite <- app_assoc. auto.
Qed.
(** *** Once closed, closed for good *)

Lemma step_closed e w :
  closed (this w) = true -> closed (this (step e w)) = true.
Proof.
  intros Cl. destruct e as [bound f|peer| |id| |cb|]; cbn [step].
  - destruct (listen_fields bound f w)
      as (_ & _ & _ & _ & _ & _ & _ & _ & _ & _ & -> & _). exact Cl.
  - destruct (started (this w) && serverListening w); [|exact Cl].
    set (s := mkSocket _ _). set (w0 := set_nextSocket _ w).
    destruct (Z_lt_le_dec (connectedSockets (this w0)) (maxTcpSockets (this w0)))
      as [Adm|Over].
    + destruct (onConnection_admitted s w0 Adm)
        as (_ & _ & _ & _ & _ & _ & _ & _ & _ & _ & -> & _). exact Cl.
    + now rewrite (onConnection_over s w0 Over).
  - now destruct (started (this w)).
  - destruct (find (has_id id) (closeOnce w)) as [s|]; [|exact Cl].
    set (w0 := set_closeOnce _ w).
    destruct (socket_onClose_fields s w0)
      as (_ & _ & _ & _ & _ & _ & _ & _ & _ & _ & -> & _). exact Cl.
  - now destruct (timers w) as [|[fn socket] rest].
  - now rewrite (createConnection_closed cb w Cl).
  - exact Cl.
Qed.

Lemma run_closed es : forall w,
  closed (this w) = true -> closed (this (run es w)) = true.
Proof.
  induction es as [|e es IH]; intros w Cl; [exact Cl|].
  rewrite run_cons. apply IH. now apply step_closed.
Qed.

(** *** The queue discipline, whatever the events in between *)

Lemma skipn_own_length {A} (l more : list A) :
  skipn (List.length l) (l ++ more) = more.
Proof. induction l; simpl; auto. Qed.

Lemma skipn_beyond_tail {A} (x : A) (l : list A) :
  skipn (List.length (x :: l)) l = [].
Proof. apply skipn_all2. simpl. lia. Qed.

(** A turn leaves the queue alone or pushes one callback at its end; or
    it shifts its head and sets the hand-off of the socket that just came
    to it; or it flushes the queue, closing the agent. *)
Lemma step_queue e w :
  (waitingCreateConn (this (step e w))
   = waitingCreateConn (this w) ++ parks e w
   /\ hands e w = []
   /\ (closed (this w) = true -> parks e w = [])
   /\ (nextSocket w <= nextSocket (step e w))%nat)
  \/ (exists fn s,
        waitingCreateConn (this w) = fn :: waitingCreateConn (this (step e w))
        /\ hands e w = [(fn, s)]
        /\ parks e w = []
        /\ sock_id s = nextSocket w
        /\ nextSocket (step e w) = S (nextSocket w))
  \/ (waitingCreateConn (this (step e w)) = []
      /\ parks e w = []
      /\ hands e w = []
      /\ closed (this (step e w)) = true
      /\ nextSocket (step e w) = nextSocket w).
Proof.
  assert (Same : forall w',
            waitingCreateConn (this w') = waitingCreateConn (this w) ->
            timers w' = timers w ->
            (nextSocket w <= nextSocket w')%nat ->
            waitingCreateConn (this w')
            = waitingCreateConn (this w)
              ++ skipn (List.length (waitingCreateConn (this w)))
                       (waitingCreateConn (this w'))
            /\ skipn (List.length (timers w)) (timers w') = []
            /\ (closed (this w) = true ->
                skipn (List.length (waitingCreateConn (this w)))
                      (waitingCreateConn (this w')) = [])
            /\ (nextSocket w <= nextSocket w')%nat).
  { intros w' -> -> Le. rewrite !skipn_all, app_nil_r. auto. }
  unfold parks, hands.
  destruct e as [bound f|peer| |id| |cb|]; cbn [step].
  - left. destruct (listen_fields bound f w)
      as (_ & Ew & _ & _ & _ & Et & _ & _ & En & _).
    apply Same; [assumption|assumption|lia].
  - destruct (started (this w) && serverListening w);
      [|left; now apply Same].
    set (s := mkSocket _ _). set (w0 := set_nextSocket _ w).
    destruct (Z_lt_le_dec (connectedSockets (this w0)) (maxTcpSockets (this w0)))
      as [Adm|Over].
    2:{ left. rewrite (onConnection_over s w0 Over).
        apply Same; [reflexivity|reflexivity|cbn; lia]. }
    destruct (onConnection_admitted s w0 Adm)
      as (_ & Ew & _ & _ & _ & Et & _ & _ & En & _).
    cbn [w0 this set_nextSocket timers nextSocket] in Ew, Et, En.
    destruct (waitingCreateConn (this w)) as [|fn rest] eqn:W.
    + left. rewrite Ew, Et, En. cbn [tl List.length skipn app].
      rewrite skipn_all. repeat split; auto.
    + right. left. exists fn, s. rewrite Ew, Et, En. cbn [tl].
      rewrite skipn_own_length, skipn_beyond_tail. repeat split; reflexivity.
  - destruct (started (this w)) eqn:St; [|left; now apply Same].
    right. right. cbn. rewrite skipn_nil, skipn_all. repeat split; reflexivity.
  - left. destruct (find (has_id id) (closeOnce w)) as [s|];
      [|now apply Same].
    set (w0 := set_closeOnce _ w).
    destruct (socket_onClose_fields s w0)
      as (_ & Ew & _ & _ & _ & Et & _ & _ & En & _).
    apply Same; [assumption|assumption|]. rewrite En. cbn. lia.
  - left. destruct (timers w) as [|[fn socket] rest] eqn:Tm;
      [apply Same; [reflexivity|assumption|lia]|].
    pose proof (skipn_beyond_tail (fn, socket) rest) as Sk.
    unfold do, set_timers. cbn [this timers nextSocket waitingCreateConn].
    rewrite Sk, skipn_all, app_nil_r. repeat split; auto.
  - left. destruct (closed (this w)) eqn:Cl.
    { rewrite (createConnection_closed cb w Cl).
      apply Same; [reflexivity|reflexivity|cbn; lia]. }
    destruct (createConnection_open cb w Cl)
      as (_ & Ew & _ & _ & _ & Et & _ & _ & En & _).
    destruct (availableSockets (this w)).
    + rewrite Ew, Et, En, skipn_own_length, skipn_all.
      repeat split; auto. discriminate.
    + apply Same; [assumption|assumption|lia].
  - left. apply Same; [reflexivity|reflexivity|cbn; lia].
Qed.

(** Once closed with an empty queue, nothing is parked or handed off. *)
Lemma closed_queue_stays_empty es : forall w,
  closed (this w) = true ->
  waitingCreateConn (this w) = [] ->
  parked es w = [] /\ handed_off es w = [].
Proof.
  induction es as [|e es IH]; intros w Cl W; [split; reflexivity|].
  cbn [parked handed_off].
  pose proof (step_closed e w Cl) as Cl'.
  destruct (step_queue e w)
    as [(Ew & Eh & Ep & _)|[(fn & s & Ew & _)|(Ew & Ep & Eh & _)]].
  - rewrite (Ep Cl), W in Ew. rewrite (Ep Cl), Eh.
    destruct (IH (step e w) Cl' Ew) as (-> & ->). split; reflexivity.
  - rewrite W in Ew. discriminate.
  - rewrite Ep, Eh. destruct (IH (step e w) Cl' Ew) as (-> & ->).
    split; reflexivity.
Qed.

(** The hand-offs of a history go, in order, to the callbacks at the
    front of the queue followed by those parked since. *)
Lemma handed_off_serves_queue es : forall w,
  exists unserved,
    waitingCreateConn (this w) ++ parked es w
    = map fst (handed_off es w) ++ unserved.
Proof.
  induction es as [|e es IH]; intros w.
  { exists (waitingCreateConn (this w)). cbn. now rewrite app_nil_r. }
  cbn [parked handed_off].
  destruct (step_queue e w)
    as [(Ew & Eh & _)|[(fn & s & Ew & Eh & Ep & _)|(Ew & Ep & Eh & Cl & _)]].
  - destruct (IH (step e w)) as (u & Hu). exists u.
    rewrite Eh, app_assoc, <- Ew. exact Hu.
  - destruct (IH (step e w)) as (u & Hu). exists u.
    rewrite Eh, Ep, Ew. cbn. now rewrite Hu.
  - destruct (closed_queue_stays_empty es (step e w) Cl Ew) as (-> & ->).
    rewrite Ep, Eh. exists (waitingCreateConn (this w)). cbn.
    now rewrite app_nil_r.
Qed.

Lemma step_nextSocket e w : (nextSocket w <= nextSocket (step e w))%nat.
Proof.
  destruct (step_queue e w)
    as [(_ & _ & _ & Le)|[(fn & s & _ & _ & _ & _ & En)|(_ & _ & _ & _ & En)]];
    lia.
Qed.

(** The sockets handed off are distinct arrivals, in order of arrival. *)
Lemma handed_off_in_arrival_order es : forall w,
  StronglySorted lt (ids (map snd (handed_off es w)))
  /\ Forall (fun i => nextSocket w <= i)%nat
            (ids (map snd (handed_off es w))).
Proof.
  induction es as [|e es IH]; intros w; [split; constructor|].
  cbn [handed_off]. destruct (IH (step e w)) as (So & Lo).
  assert (Lo' : Forall (fun i => nextSocket w <= i)%nat
                  (ids (map snd (handed_off es (step e w))))).
  { eapply Forall_impl; [|exact Lo]. cbn. intros i Hi.
    pose proof (step_nextSocket e w). lia. }
  destruct (step_queue e w)
    as [(_ & Eh & _)|[(fn & s & _ & Eh & _ & Es & En)|(_ & _ & Eh & _)]];
    rewrite Eh; cbn; try (split; assumption).
  split.
  - constructor; [assumption|]. eapply Forall_impl; [|exact Lo].
    cbn. intros i Hi. lia.
  - constructor; [lia|assumption].
Qed.
End Runs.

(** ** The checked-out sockets *)

Section CheckedOut.
Context `{lib : IpAddrLib}.

(** [handed] only looks at the calls that give a socket and at the
    timers. *)
Lemma handed_same w w' s more :
  effects w' = effects w ++ more ->
  (forall cb t, ~ In (Call cb (Given t)) more) ->
  timers w' = timers w ->
  handed w' s <-> handed w s.
Proof.
  intros Ee No Et. unfold handed. rewrite Ee, Et.
  split; intros [cb [H|H]]; exists cb; auto.
  - apply in_app_or in H. destruct H as [H|H]; [auto|]. now apply No in H.
  - left. apply in_or_app. now left.
Qed.

Lemma Tracked_same w w' more :
  effects w' = effects w ++ more ->
  (forall cb t, ~ In (Call cb (Given t)) more) ->
  timers w' = timers w ->
  closeOnce w' = closeOnce w ->
  checkedOut w' = checkedOut w ->
  (nextSocket w <= nextSocket w')%nat ->
  Tracked w -> Tracked w'.
Proof.
  intros Ee No Et Ec Eo Le [K F]. split.
  - intros s. rewrite Ec, Eo, (handed_same w w' s more Ee No Et). apply K.
  - intros s H. rewrite (handed_same w w' s more Ee No Et) in H.
    apply F in H. lia.
Qed.

Lemma Tracked_boot options : Tracked (boot options).
Proof.
  split.
  - intros s. split; [intros []|intros [[] _]].
  - intros s [cb [[]|[]]].
Qed.

Lemma Tracked_onConnection w peer :
  Inv w -> Tracked w ->
  Tracked (_onConnection {| sock_id := nextSocket w; remoteAddress := peer |}
                         (set_nextSocket (S (nextSocket w)) w)).
Proof.
  intros I [K F].
  set (s := {| sock_id := nextSocket w; remoteAddress := peer |}).
  set (w0 := set_nextSocket (S (nextSocket w)) w).
  destruct (Z_lt_le_dec (connectedSockets (this w0)) (maxTcpSockets (this w0)))
    as [Adm|Over].
  2:{ rewrite (onConnection_over s w0 Over).
      apply (Tracked_same w _ [SetTimeout s (_socketTimeout (this w)); Destroy s]);
        try reflexivity; [| |cbn; lia|now split].
      - cbn. now rewrite <- app_assoc.
      - intros cb t [H|[H|[]]]; discriminate. }
  destruct (onConnection_admitted s w0 Adm)
    as (_ & _ & _ & El & Eo & Et & _ & Ee & En & _).
  cbn [w0 this set_nextSocket closeOnce checkedOut nextSocket timers effects
       connectedSockets _socketTimeout] in El, Eo, Et, Ee, En.
  set (more := SetTimeout s (_socketTimeout (this w))
               :: (if connectedSockets (this w) =? 0 then [Emit online] else []))
    in Ee.
  assert (No : forall cb t, ~ In (Call cb (Given t)) more).
  { intros cb t [H|H]; [discriminate|].
    destruct (connectedSockets (this w) =? 0); [|easy].
    destruct H as [H|[]]; discriminate. }
  assert (Old : forall t, handed w t -> handed (_onConnection s w0) t).
  { intros t [cb [H|H]]; exists cb; rewrite Ee, Et.
    - left. apply in_or_app. now left.
    - right. destruct (waitingCreateConn (this w)); [assumption|].
      apply in_or_app. now left. }
  assert (Ids : forall t, In (sock_id t) (ids (closeOnce w ++ [s]))
                          <-> In (sock_id t) (ids (closeOnce w))
                              \/ sock_id t = nextSocket w).
  { intros t. unfold ids. rewrite map_app, in_app_iff. cbn. intuition. }
  destruct (waitingCreateConn (this w)) as [|fn rest] eqn:W.
  - assert (Same : forall t, handed (_onConnection s w0) t <-> handed w t).
    { intros t. now apply (handed_same w _ t more). }
    split.
    + intros t. rewrite El, Eo, Same, Ids, K. split; [tauto|].
      intros [[H|H] Hd]; [tauto|]. apply F in Hd. lia.
    + intros t Hd. rewrite En. apply Same, F in Hd. lia.
  - assert (New : forall t, handed (_onConnection s w0) t
                            -> handed w t \/ t = s).
    { intros t [cb [H|H]].
      - rewrite Ee in H. apply in_app_or in H. destruct H as [H|H].
        + left. exists cb. now left.
        + now apply No in H.
      - rewrite Et in H. apply in_app_or in H. destruct H as [H|[H|[]]].
        + left. exists cb. now right.
        + right. now injection H. }
    split.
    + intros t. rewrite El, Eo, Ids, in_app_iff. cbn. split.
      * intros [H|[<-|[]]].
        -- apply K in H. split; [tauto|]. apply Old. tauto.
        -- split; [now right|]. exists fn. right. rewrite Et.
           apply in_or_app. right. now left.
      * intros [Hi Hd]. apply New in Hd. destruct Hd as [Hd| ->]; [|tauto].
        left. apply K. split; [|assumption].
        destruct Hi as [Hi|Hi]; [assumption|]. apply F in Hd. lia.
    + intros t Hd. rewrite En. apply New in Hd.
      destruct Hd as [Hd| ->]; [apply F in Hd; lia|cbn; lia].
Qed.

Lemma Tracked_createConnection w cb :
  Inv w -> Tracked w -> Tracked (createConnection cb w).
Proof.
  intros I [K F]. destruct (closed (this w)) eqn:Cl.
  { rewrite (createConnection_closed cb w Cl).
    apply (Tracked_same w _ [Call cb (Failed "closed")]);
      try reflexivity; [|now split].
    intros c t [H|[]]. discriminate. }
  destruct (createConnection_open cb w Cl)
    as (_ & _ & _ & El & Eo & Et & _ & Ee & En & _).
  destruct (availableSockets (this w)) as [|sock rest] eqn:A.
  { apply (Tracked_same w _ []); rewrite ?app_nil_r; try assumption;
      [easy|lia|now split]. }
  assert (New : forall t, handed (createConnection cb w) t
                          <-> handed w t \/ t = sock).
  { intros t. unfold handed. rewrite Ee, Et. split.
    - intros [c [H|H]].
      + apply in_app_or in H. destruct H as [H|[H|[]]].
        * left. exists c. now left.
        * right. now injection H.
      + left. exists c. now right.
    - intros [[c [H|H]]| ->].
      + exists c. left. apply in_or_app. now left.
      + exists c. now right.
      + exists cb. left. apply in_or_app. right. now left. }
  assert (Hs : In sock (availableSockets (this w) ++ checkedOut w)).
  { rewrite A. now left. }
  split.
  - intros t. rewrite El, Eo, New, in_app_iff. cbn. split.
    + intros [H|[<-|[]]].
      * apply K in H. tauto.
      * split; [|now right].
        eapply Permutation_in; [apply I|]. now apply in_map.
    + intros [Hi [Hd| ->]]; [|tauto]. left. apply K. tauto.
  - intros t Hd. rewrite En. apply New in Hd.
    destruct Hd as [Hd| ->]; [now apply F|].
    now apply (Inv_pool_fresh w sock I).
Qed.

Lemma Tracked_socketClosed w id :
  Inv w -> Tracked w -> Tracked (step (SocketClosed id) w).
Proof.
  intros I [K F]. cbn [step].
  destruct (find (has_id id) (closeOnce w)) as [s|] eqn:Fd; [|now split].
  apply find_has_id in Fd. destruct Fd as [Hin Hid].
  assert (E0 : filter (fun t => negb (has_id id t)) (closeOnce w)
               = filter (other_than s) (closeOnce w)).
  { apply filter_ext. intros t.
    unfold other_than, same_socket, has_id. now rewrite Hid. }
  rewrite E0.
  set (w0 := set_closeOnce (filter (other_than s) (closeOnce w)) w).
  destruct (socket_onClose_fields s w0)
    as (_ & _ & _ & El & Eo & Et & _ & Ee & En & _).
  cbn [w0 this set_closeOnce closeOnce checkedOut nextSocket timers effects
       connectedSockets] in El, Eo, Et, Ee, En.
  set (more := if connectedSockets (this w) - 1 <=? 0 then [Emit offline]
               else []) in Ee.
  assert (No : forall cb t, ~ In (Call cb (Given t)) more).
  { intros cb t H. subst more.
    destruct (connectedSockets (this w) - 1 <=? 0); [|easy].
    destruct H as [H|[]]. discriminate. }
  assert (Same : forall t, handed (socket_onClose s w0) t <-> handed w t).
  { intros t. now apply (handed_same w _ t more). }
  split.
  - intros t. rewrite El, Eo, Same, ids_filter, !filter_In, K.
    unfold other_than, same_socket. tauto.
  - intros t Hd. rewrite En. now apply F, Same.
Qed.

Lemma Tracked_step e w : Inv w -> Tracked w -> Tracked (step e w).
Proof.
  intros I T. destruct e as [bound f|peer| |id| |cb|].
  - destruct (listen_fields bound f w)
      as (_ & _ & _ & El & Eo & Et & _ & Ee & En & _).
    apply (Tracked_same w _ []); rewrite ?app_nil_r; try assumption;
      [easy|cbn [step]; lia].
  - cbn [step]. destruct (started (this w) && serverListening w);
      [now apply Tracked_onConnection|assumption].
  - cbn [step]. destruct (started (this w)); [|assumption].
    apply (Tracked_same w _
             (map (fun conn => Call conn (Failed "closed"))
                  (waitingCreateConn (this w)) ++ [Emit end_]));
      try reflexivity; [| |assumption].
    + cbn. now rewrite <- app_assoc.
    + intros cb t H. apply in_app_or in H. destruct H as [H|[H|[]]].
      * apply in_map_iff in H. destruct H as (c & H & _). discriminate.
      * discriminate.
  - now apply Tracked_socketClosed.
  - cbn [step]. destruct (timers w) as [|[fn socket] rest] eqn:Tm;
      [assumption|].
    destruct T as [K F].
    assert (Same : forall t, handed (do [Call fn (Given socket)]
                                        (set_timers rest w)) t
                             <-> handed w t).
    { intros t. unfold handed. cbn. rewrite Tm. split.
      - intros [c [H|H]].
        + apply in_app_or in H. destruct H as [H|[H|[]]].
          * exists c. now left.
          * injection H as E1 E2. subst. eexists. right. now left.
        + exists c. right. now right.
      - intros [c [H|[H|H]]].
        + exists c. left. apply in_or_app. now left.
        + injection H as E1 E2. subst. eexists. left. apply in_or_app.
          right. now left.
        + exists c. now right. }
    split.
    + intros t. rewrite Same. apply K.
    + intros t Hd. apply Same in Hd. now apply F.
  - now apply Tracked_createConnection.
  - apply (Tracked_same w _ [ServerClose; SuperDestroy]);
      try reflexivity; [| |assumption].
    + cbn. now rewrite <- app_assoc.
    + intros cb t [H|[H|[]]]; discriminate.
Qed.

Lemma Tracked_run es : forall w, Inv w -> Tracked w -> Tracked (run es w).
Proof.
  induction es as [|e es IH]; intros w I T; [assumption|].
  rewrite run_cons. apply IH; [now apply Inv_step|now apply Tracked_step].
Qed.
End CheckedOut.

(** ** After [destroy()] *)

Section Destroyed.
Context `{lib : IpAddrLib}.

Lemma splice1_incl {A} i (l : list A) : incl (Js.splice1 i l) l.
Proof.
  revert i. induction l as [|y l IH]; intros i;
    [destruct i; apply incl_refl|].
  destruct i; simpl.
  - apply incl_tl, incl_refl.
  - apply incl_cons; [now left|]. apply incl_tl, IH.
Qed.

(** On a started agent whose listener no longer accepts, a turn admits
    nothing: no socket object comes in, and the armed sockets, the pool and
    the counter can only shrink. *)
Lemma step_not_listening e w :
  started (this w) = true ->
  serverListening w = false ->
  let w' := step e w in
  started (this w') = true
  /\ serverListening w' = false
  /\ nextSocket w' = nextSocket w
  /\ incl (closeOnce w') (closeOnce w)
  /\ incl (availableSockets (this w')) (availableSockets (this w))
  /\ connectedSockets (this w') <= connectedSockets (this w)
  /\ (e = ServerClosed -> closed (this w') = true).
Proof.
  intros St Li.
  destruct e as [bound f|peer| |id| |cb|]; cbn [step].
  - destruct (listen_fields bound f w)
      as (_ & _ & _ & _ & _ & _ & _ & _ & _ & _ & _ & _ & Same).
    rewrite (Same St). repeat split; try easy; try lia; try apply incl_refl.
  - rewrite St, Li. repeat split; try easy; try lia; try apply incl_refl.
  - rewrite St. cbn. repeat split; try easy; try lia; try apply incl_refl.
  - destruct (find (has_id id) (closeOnce w)) as [s|];
      [|repeat split; try easy; try lia; try apply incl_refl].
    set (w0 := set_closeOnce _ w).
    destruct (socket_onClose_fields s w0)
      as (Ea & _ & Ec & El & _ & _ & _ & _ & En & _ & _ & Est & Eli).
    cbn zeta. rewrite Ea, Ec, El, En, Est, Eli. subst w0. cbn.
    repeat split; try easy; try lia.
    + apply incl_filter.
    + destruct (0 <=? _); [apply splice1_incl|apply incl_refl].
  - destruct (timers w) as [|[fn socket] rest]; cbn;
      repeat split; try easy; try lia; try apply incl_refl.
  - destruct (closed (this w)) eqn:Cl.
    + rewrite (createConnection_closed cb w Cl). cbn.
      repeat split; try easy; try lia; try apply incl_refl.
    + destruct (createConnection_open cb w Cl)
        as (Ea & _ & Ec & El & _ & _ & _ & _ & En & _ & _ & Est & Eli).
      cbn zeta. rewrite Ea, Ec, El, En, Est, Eli.
      repeat split; try easy; try lia; try apply incl_refl.
      destruct (availableSockets (this w)); [easy|apply incl_tl, incl_refl].
  - cbn. repeat split; try easy; try lia; try apply incl_refl.
Qed.

Lemma run_not_listening es : forall w,
  started (this w) = true ->
  serverListening w = false ->
  let w' := run es w in
  started (this w') = true
  /\ serverListening w' = false
  /\ nextSocket w' = nextSocket w
  /\ incl (closeOnce w') (closeOnce w)
  /\ incl (availableSockets (this w')) (availableSockets (this w))
  /\ connectedSockets (this w') <= connectedSockets (this w)
  /\ (In ServerClosed es -> closed (this w') = true).
Proof.
  induction es as [|e es IH]; intros w St Li w'.
  { subst w'. cbn. repeat split; try easy; try lia; try apply incl_refl. }
  subst w'. rewrite run_cons.
  destruct (step_not_listening e w St Li) as (St' & Li' & N & Lc & La & C & Cl).
  destruct (IH (step e w) St' Li') as (St2 & Li2 & N2 & Lc2 & La2 & C2 & Cl2).
  repeat split; try assumption.
  - congruence.
  - eapply incl_tran; eassumption.
  - eapply incl_tran; eassumption.
  - lia.
  - intros [E|Hin]; [|now apply Cl2].
    apply run_closed, Cl, E.
Qed.
End Destroyed.

(* ================================================================== *)
(** * The claims *)

Section Claims.
Context `{lib : IpAddrLib}.

(** C3.  In every state a history reaches (after each admission,
    checkout, hand-off or socket close) [connectedSockets] is the number
    of sockets in [availableSockets] plus the number checked out to
    consumers, and it is not negative.  The checked-out sockets are those
    given to a callback, or set by a timer to be given, whose [close] has
    not come yet. *)
Theorem connectedSockets_is_available_plus_checked_out options es :
  let w := run es (boot options) in
  connectedSockets (this w)
  = Z.of_nat (List.length (availableSockets (this w)))
    + Z.of_nat (List.length (checkedOut w))
  /\ 0 <= connectedSockets (this w)
  /\ forall s,
       In s (checkedOut w)
       <-> In (sock_id s) (ids (closeOnce w)) /\ handed w s.
Proof.
  intros w. assert (I : Inv w) by apply Inv_run, Inv_boot.
  pose proof (Permutation_length (inv_where w I)) as L.
  unfold ids in L. rewrite !length_map, length_app in L.
  rewrite (inv_count w I).
  split; [lia|]. split; [lia|].
  apply (Tracked_run es (boot options) (Inv_boot options)
           (Tracked_boot options)).
Qed.


Lemma onClose_effects w :
  effects (_onClose w)
  = effects w
    ++ map (fun cb => Call cb (Failed "closed")) (waitingCreateConn (this w))
    ++ [Emit end_].
Proof. cbn. now rewrite <- app_assoc. Qed.


(** C7.  The listener's [close] handler sets [closed], completes every
    callback pending in [waitingCreateConn] with a [closed] error, in
    queue order, leaves the queue empty, and then raises [end]. *)
Theorem onClose_cascade w :
  let w' := _onClose w in
  closed (this w') = true
  /\ waitingCreateConn (this w') = []
  /\ effects w'
     = effects w
       ++ map (fun cb => Call cb (Failed "closed"))
              (waitingCreateConn (this w))
       ++ [Emit end_].
Proof.
  cbn. split; [reflexivity|]. split; [reflexivity|]. apply onClose_effects.
Qed.

(** The runtime runs that handler when the listener of a started agent
    closes. *)
Lemma ServerClosed_runs_onClose w :
  started (this w) = true ->
  step ServerClosed w = _onClose (set_listening false w).
Proof. intros H. cbn [step]. now rewrite H. Qed.

(** C10.  The close cascade leaves [availableSockets] as it is and
    destroys no socket; a [createConnection] on a closed agent only
    completes its callback with the [closed] error: both queues stay as
    they are. *)
Theorem closed_paths_leave_the_pool w :
  (availableSockets (this (_onClose w)) = availableSockets (this w)
   /\ exists done,
        effects (_onClose w) = effects w ++ done
        /\ forall s, ~ In (Destroy s) done)
  /\ forall cb,
       closed (this w) = true ->
       let w' := createConnection cb w in
       availableSockets (this w') = availableSockets (this w)
       /\ waitingCreateConn (this w') = waitingCreateConn (this w)
       /\ effects w' = effects w ++ [Call cb (Failed "closed")].
Proof.
  split.
  - split; [reflexivity|].
    eexists. split; [apply onClose_effects|].
    intros s Hin. apply in_app_or in Hin. destruct Hin as [Hin|[Hin|[]]].
    + apply in_map_iff in Hin. destruct Hin as (cb & Hcb & _). discriminate.
    + discriminate.
  - intros cb Cl w'. subst w'. rewrite (createConnection_closed cb w Cl).
    repeat split; reflexivity.
Qed.

Lemma arrivals_length n peers : List.length (arrivals n peers) = List.length peers.
Proof.
  revert n. induction peers as [|p peers IH]; intros n; simpl; [|rewrite IH];
    reflexivity.
Qed.

Lemma arrivals_snoc n peers peer :
  arrivals n (peers ++ [peer])
  = arrivals n peers
    ++ [{| sock_id := n + List.length peers; remoteAddress := peer |}].
Proof.
  revert n. induction peers as [|p peers IH]; intros n; simpl.
  - now rewrite Nat.add_0_r.
  - rewrite IH. now rewrite Nat.add_succ_comm.
Qed.

Lemma combine_snoc {A B} (l : list A) (l' : list B) x y :
  List.length l = List.length l' ->
  combine (l ++ [x]) (l' ++ [y]) = combine l l' ++ [(x, y)].
Proof.
  revert l'. induction l as [|a l IH]; intros [|b l'] E; try discriminate.
  - reflexivity.
  - simpl. rewrite IH; [reflexivity|]. now injection E.
Qed.

(** C1 (as amended).  [createConnection(cb)] on a closed agent completes
    [cb] with a [closed] error.  On an open agent with a socket in
    [availableSockets] it removes the head and gives it to [cb] within the
    call.  Otherwise it appends [cb] to [waitingCreateConn]; [cb] then gets
    the first socket admitted after those that serve the callbacks queued
    ahead of it, which is the next admitted socket when the queue was
    empty: whatever happens next, the hand-offs go to the queue as it
    stood, then to [cb], then to the callbacks parked later. *)
Theorem createConnection_spec w cb :
  let w' := createConnection cb w in
  (closed (this w) = true -> w' = do [Call cb (Failed "closed")] w)
  /\ (closed (this w) = false ->
      forall sock rest,
        availableSockets (this w) = sock :: rest ->
        availableSockets (this w') = rest
        /\ waitingCreateConn (this w') = waitingCreateConn (this w)
        /\ effects w' = effects w ++ [Call cb (Given sock)])
  /\ (closed (this w) = false ->
      availableSockets (this w) = [] ->
      waitingCreateConn (this w') = waitingCreateConn (this w) ++ [cb]
      /\ effects w' = effects w
      /\ (forall es,
            exists unserved,
              (waitingCreateConn (this w) ++ [cb]) ++ parked es w'
              = map fst (handed_off es w') ++ unserved)
      /\ forall peers peer,
           started (this w) = true ->
           serverListening w = true ->
           List.length peers = List.length (waitingCreateConn (this w)) ->
           connectedSockets (this w) + Z.of_nat (List.length peers)
           < maxTcpSockets (this w) ->
           let w'' := run (map Connection (peers ++ [peer])) w' in
           let sock := {| sock_id := nextSocket w + List.length peers;
                          remoteAddress := peer |} in
           let ahead := combine (waitingCreateConn (this w))
                                (arrivals (nextSocket w) peers) in
           timers w'' = timers w ++ ahead ++ [(cb, sock)]
           /\ waitingCreateConn (this w'') = []
           /\ effects (run (repeat TimerFires (List.length (timers w''))) w'')
              = effects w'' ++ map deliver (timers w ++ ahead)
                ++ [Call cb (Given sock)]).
Proof.
  intros w'. subst w'. split; [apply createConnection_closed|].
  split.
  - intros Cl sock rest A.
    destruct (createConnection_open cb w Cl)
      as (Ea & Ew & _ & _ & _ & _ & _ & Ee & _).
    rewrite A in *. auto.
  - intros Cl A.
    destruct (createConnection_open cb w Cl)
      as (Ea & Ew & Ec & _ & _ & Et & _ & Ee & En & Em & Ecl & Est & Eli).
    rewrite A in *. cbn [tl] in Ea.
    split; [exact Ew|]. split; [exact Ee|].
    split.
    { intros es. rewrite <- Ew. apply handed_off_serves_queue. }
    intros peers peer St Li Len Bud w'' sock ahead.
    destruct (connections_serve_waiters (peers ++ [peer]) (createConnection cb w))
      as (Iw & It & _).
    + now rewrite Est.
    + now rewrite Eli.
    + rewrite Ec, Em, length_app. cbn. lia.
    + rewrite Ew, !length_app. cbn. lia.
    + fold w'' in Iw, It.
      rewrite Ew, Et, En, arrivals_snoc, combine_snoc in It
        by (now rewrite arrivals_length).
      fold sock ahead in It.
      assert (Tm : timers w'' = timers w ++ ahead ++ [(cb, sock)]) by exact It.
      split; [exact Tm|]. split.
      * rewrite Iw, Ew. apply skipn_all2. rewrite !length_app. cbn. lia.
      * destruct (timers_fire_in_order (timers w'') w'' eq_refl) as (Fe & _).
        rewrite Fe, Tm, app_assoc, map_app. reflexivity.
Qed.

(** C6.  Whatever the history, the hand-offs it made went, in order, to
    the callbacks that had to wait, in the order they were queued, and the
    sockets handed off are in order of admission: the i-th socket admitted
    while callbacks wait goes to the i-th queued callback.  The pool is
    kept in the order its sockets were admitted, and checkouts take its
    head: the i-th of a run of checkouts gets the i-th socket of the pool.
    Callbacks queue up in the order they come, a run of admitted sockets
    is set, by timers, for the callbacks at the head of the queue one by
    one, and the timers call in the order they were set. *)
Theorem fifo_service options es :
  let w := run es (boot options) in
  (exists unserved,
     parked es (boot options)
     = map fst (handed_off es (boot options)) ++ unserved)
  /\ StronglySorted lt (ids (map snd (handed_off es (boot options))))
  /\ StronglySorted lt (ids (availableSockets (this w)))
  /\ (forall cbs,
        closed (this w) = false ->
        (List.length cbs <= List.length (availableSockets (this w)))%nat ->
        let w' := run (map CreateConnection cbs) w in
        effects w'
        = effects w ++ map deliver (combine cbs (availableSockets (this w)))
        /\ availableSockets (this w')
           = skipn (List.length cbs) (availableSockets (this w)))
  /\ (forall cbs peers,
        closed (this w) = false ->
        availableSockets (this w) = [] ->
        started (this w) = true ->
        serverListening w = true ->
        connectedSockets (this w) + Z.of_nat (List.length peers)
        <= maxTcpSockets (this w) ->
        let queue := waitingCreateConn (this w) ++ cbs in
        (List.length peers <= List.length queue)%nat ->
        let w1 := run (map CreateConnection cbs) w in
        let w2 := run (map Connection peers) w1 in
        waitingCreateConn (this w1) = queue
        /\ timers w2
           = timers w ++ combine queue (arrivals (nextSocket w) peers)
        /\ waitingCreateConn (this w2) = skipn (List.length peers) queue
        /\ effects (run (repeat TimerFires (List.length (timers w2))) w2)
           = effects w2 ++ map deliver (timers w2)).
Proof.
  intros w.
  split; [apply (handed_off_serves_queue es (boot options))|].
  split; [apply (handed_off_in_arrival_order es (boot options))|].
  split; [apply inv_order, Inv_run, Inv_boot|]. split.
  - intros cbs Cl Len w'.
    destruct (checkouts_take_heads cbs w Cl Len) as (Ea & Ee & _). auto.
  - intros cbs peers Cl A St Li Bud queue Len w1 w2.
    destruct (checkouts_queue_up cbs w Cl A)
      as (Ew & _ & _ & Et & Ec & Em & En & _ & Est & Eli).
    fold w1 in Ew, Et, Ec, Em, En, Est, Eli. fold queue in Ew.
    destruct (connections_serve_waiters peers w1) as (Iw & It & _).
    + now rewrite Est.
    + now rewrite Eli.
    + now rewrite Ec, Em.
    + now rewrite Ew.
    + fold w2 in Iw, It. rewrite Ew, Et, En in It. rewrite Ew in Iw.
      repeat split; try assumption.
      apply (timers_fire_in_order (timers w2) w2 eq_refl).
Qed.

(** C2 (as amended).  After [destroy()] on a started agent no socket is
    admitted any more: whatever happens next, no socket object comes in,
    and the armed sockets, the pool and the counter only shrink.
    [destroy()] leaves [closed] as it is; it is the listener's [close]
    event that sets it, and from that event on every [createConnection]
    completes at once with the [closed] error. *)
Theorem after_destroy w es :
  started (this w) = true ->
  let w' := run es (destroy w) in
  closed (this (destroy w)) = closed (this w)
  /\ nextSocket w' = nextSocket w
  /\ incl (closeOnce w') (closeOnce w)
  /\ incl (availableSockets (this w')) (availableSockets (this w))
  /\ connectedSockets (this w') <= connectedSockets (this w)
  /\ (In ServerClosed es ->
      closed (this w') = true
      /\ forall cb, createConnection cb w' = do [Call cb (Failed "closed")] w').
Proof.
  intros St w'.
  destruct (run_not_listening es (destroy w) St eq_refl)
    as (_ & _ & N & Lc & La & C & Cl).
  fold w' in N, Lc, La, C, Cl.
  repeat split; try assumption.
  - now apply Cl.
  - intros cb. apply createConnection_closed. now apply Cl.
Qed.

(** C8 (what the code does when the lookup fails by rejection).  The
    first [listen()] of a process whose [fetch] rejects never hands the
    port to its caller: the listen callback rejects before
    [resolve(info)], and the promise stays pending. *)
Theorem listen_never_settles_when_fetch_rejects options bound :
  snd (listen bound FetchRejected (boot options)) = NeverSettles.
Proof. reflexivity. Qed.

(** When the address service answers, [listen()] resolves with the bound
    port; an answer that is not ok leaves [publicIp] out. *)
Lemma listen_resolves_when_fetch_answers options bound ok text :
  snd (listen bound (FetchResponse ok (Some text)) (boot options))
  = Resolved {| port := bound;
                publicIp := if ok && negb (Js.trim text =? EmptyString)%string
                            then Some (Js.trim text) else None |}.
Proof.
  destruct ok; cbn; [|reflexivity].
  destruct (Js.trim text =? EmptyString)%string; reflexivity.
Qed.

(** C9.  An admitted socket's peer address is recorded in [agentIps]
    after normalisation, once: an address valid as IPv4 as it is, an
    IPv4-mapped IPv6 address as the IPv4 address it maps, any other IPv6
    address in its normalised writing, and an invalid address not at
    all. *)
Theorem peer_address_is_normalised_then_recorded w socket :
  connectedSockets (this w) < maxTcpSockets (this w) ->
  let addr := remoteAddress socket in
  let w' := _onConnection socket w in
  (forall ip,
     sanitize addr = Some ip -> ip <> EmptyString ->
     In ip (agentIps (this w'))
     /\ (In ip (agentIps (this w)) -> agentIps (this w') = agentIps (this w))
     /\ (~ In ip (agentIps (this w)) ->
         agentIps (this w') = agentIps (this w) ++ [ip]))
  /\ (sanitize addr = None -> agentIps (this w') = agentIps (this w))
  /\ (IPv4_isValid addr = true -> sanitize addr = Some addr)
  /\ (forall ip6,
        IPv4_isValid addr = false -> IPv6_parse addr = Some ip6 ->
        sanitize addr
        = Some (if isIPv4MappedAddress ip6 then toIPv4Address_toString ip6
                else toNormalizedString ip6))
  /\ (IPv4_isValid addr = false -> IPv6_parse addr = None ->
      sanitize addr = None).
Proof.
  intros Adm addr w'.
  destruct (onConnection_admitted socket w Adm)
    as (_ & _ & _ & _ & _ & _ & Ei & _).
  fold w' addr in Ei. rewrite Ei. unfold save_agentIp.
  split; [|split; [|split; [|split]]].
  - intros ip -> Ne.
    assert (T : Js.truthy (Some ip) = true).
    { cbn. destruct (ip =? EmptyString)%string eqn:E; [|reflexivity].
      apply String.eqb_eq in E. contradiction. }
    rewrite T. cbn [andb].
    pose proof (indexOf_lower String.eqb ip (agentIps (this w))) as Lo.
    pose proof (indexOf_absent String.eqb ip (agentIps (this w))) as Ab.
    assert (Mem : Js.indexOf String.eqb ip (agentIps (this w)) < 0
                  <-> ~ In ip (agentIps (this w))).
    { rewrite Ab. split.
      - intros H Hin. specialize (H ip Hin). rewrite String.eqb_refl in H.
        discriminate.
      - intros H y Hy. destruct (y =? ip)%string eqn:E; [|reflexivity].
        apply String.eqb_eq in E. subst y. contradiction. }
    destruct (Js.indexOf String.eqb ip (agentIps (this w)) =? -1) eqn:E.
    + apply Z.eqb_eq in E. assert (Out : ~ In ip (agentIps (this w)))
        by (apply Mem; lia).
      cbn. unfold Js.push. split; [apply in_or_app; right; now left|].
      split; [intros Hin; contradiction|reflexivity].
    + apply Z.eqb_neq in E.
      assert (Hin : In ip (agentIps (this w))).
      { destruct (in_dec string_dec ip (agentIps (this w))) as [Hin|Out];
          [assumption|]. apply Mem in Out. lia. }
      split; [assumption|]. split; [reflexivity|].
      intros Out. contradiction.
  - now intros ->.
  - intros V. unfold sanitize. now rewrite V.
  - intros ip6 V P. unfold sanitize, IPv6_isValid. rewrite V, P.
    now destruct (isIPv4MappedAddress ip6).
  - intros V P. unfold sanitize, IPv6_isValid. now rewrite V, P.
Qed.
End Claims.

(* ================================================================== *)
(** * Further properties of the agent *)

(** ** Every turn is of one of the kinds *)

Section TurnOfStep.
Context `{lib : IpAddrLib}.

Lemma Agent_ext (a b : TunnelAgent) :
  availableSockets a = availableSockets b ->
  waitingCreateConn a = waitingCreateConn b ->
  connectedSockets a = connectedSockets b ->
  maxTcpSockets a = maxTcpSockets b ->
  _socketTimeout a = _socketTimeout b ->
  started a = started b ->
  closed a = closed b ->
  agentIps a = agentIps b ->
  a = b.
Proof. destruct a, b. cbn. intros. subst. reflexivity. Qed.

Lemma World_ext (w v : World) :
  this w = this v ->
  closeOnce w = closeOnce v ->
  timers w = timers v ->
  serverListening w = serverListening v ->
  nextSocket w = nextSocket v ->
  PUBLIC_IP w = PUBLIC_IP v ->
  effects w = effects v ->
  checkedOut w = checkedOut v ->
  w = v.
Proof. destruct w, v. cbn. intros. subst. reflexivity. Qed.

Lemma onConnection_admitted_rest s w :
  connectedSockets (this w) < maxTcpSockets (this w) ->
  _socketTimeout (this (_onConnection s w)) = _socketTimeout (this w)
  /\ PUBLIC_IP (_onConnection s w) = PUBLIC_IP w.
Proof.
  intros H. apply Z.leb_gt in H. unfold _onConnection.
  cbn [this do]. rewrite H.
  remember (sanitize (remoteAddress s)) as agentIp.
  destruct w as [[av wa cn mx tmo st cl ips] co tm li nx pip ef out].
  cbn in *. unfold save_agentIp.
  destruct wa; destruct agentIp as [ip|]; cbn; split_ifs; repeat split;
    reflexivity.
Qed.

(** An admitted connection, as a world. *)
Lemma admitted_world peer w :
  connectedSockets (this w) < maxTcpSockets (this w) ->
  let s := {| sock_id := nextSocket w; remoteAddress := peer |} in
  _onConnection s (set_nextSocket (S (nextSocket w)) w)
  = remake w
      (match waitingCreateConn (this w) with
       | [] => availableSockets (this w) ++ [s]
       | _ :: _ => availableSockets (this w)
       end)
      (tl (waitingCreateConn (this w)))
      (connectedSockets (this w) + 1)
      (agentIps (save_agentIp (sanitize peer) (this w)))
      (closed (this w))
      (closeOnce w ++ [s])
      (match waitingCreateConn (this w) with
       | [] => timers w
       | fn :: _ => timers w ++ [(fn, s)]
       end)
      (serverListening w) (S (nextSocket w))
      (SetTimeout s (_socketTimeout (this w))
         :: (if connectedSockets (this w) =? 0 then [Emit online] else []))
      (match waitingCreateConn (this w) with
       | [] => checkedOut w
       | _ :: _ => checkedOut w ++ [s]
       end).
Proof.
  intros Adm s. set (w0 := set_nextSocket (S (nextSocket w)) w).
  assert (Adm0 : connectedSockets (this w0) < maxTcpSockets (this w0))
    by exact Adm.
  destruct (onConnection_admitted s w0 Adm0)
    as (Ea & Ew & Ec & El & Eo & Et & Ei & Ee & En & Em & Ecl & Est & Eli).
  destruct (onConnection_admitted_rest s w0 Adm0) as (Eto & Ep).
  apply World_ext; [apply Agent_ext|..]; unfold remake;
    cbn [this availableSockets waitingCreateConn connectedSockets
         maxTcpSockets _socketTimeout started closed agentIps closeOnce
         timers serverListening nextSocket PUBLIC_IP effects checkedOut];
    assumption.
Qed.

Lemma same_pool_refl w : same_pool w w.
Proof. repeat split. Qed.

Lemma step_turn e w : Turn w e (step e w).
Proof.
  destruct e as [bound f|peer| |id| |cb|]; cbn [step].
  - destruct (listen_fields bound f w)
      as (Ea & Ew & Ec & El & Eo & Et & Ei & Ee & En & Em & Ecl & _).
    apply (turn_quiet w _ _ []); [reflexivity| |now rewrite app_nil_r|now left].
    repeat split; assumption.
  - destruct (started (this w) && serverListening w).
    2:{ apply (turn_quiet w _ _ []);
          [reflexivity|apply same_pool_refl|now rewrite app_nil_r|now left]. }
    destruct (Z_lt_le_dec (connectedSockets (this w)) (maxTcpSockets (this w)))
      as [Adm|Over].
    + rewrite (admitted_world peer w Adm).
      destruct (waitingCreateConn (this w)) as [|fn rest] eqn:W; cbn [tl];
        [now apply turn_pooled|now apply turn_handed].
    + replace (_onConnection _ _) with
        (remake w (availableSockets (this w)) (waitingCreateConn (this w))
           (connectedSockets (this w)) (agentIps (this w)) (closed (this w))
           (closeOnce w) (timers w) (serverListening w) (S (nextSocket w))
           [SetTimeout (mkSocket (nextSocket w) peer) (_socketTimeout (this w));
            Destroy (mkSocket (nextSocket w) peer)]
           (checkedOut w));
        [now apply turn_rejected|].
      rewrite onConnection_over by exact Over.
      apply World_ext; [apply Agent_ext|..]; cbn; rewrite <- ?app_assoc;
        reflexivity.
  - destruct (started (this w)).
    2:{ apply (turn_quiet w _ _ []);
          [reflexivity|apply same_pool_refl|now rewrite app_nil_r|now left]. }
    replace (_onClose _) with
      (remake w (availableSockets (this w)) []
         (connectedSockets (this w)) (agentIps (this w)) true
         (closeOnce w) (timers w) false (nextSocket w)
         (map (fun conn => Call conn (Failed "closed"))
              (waitingCreateConn (this w)) ++ [Emit end_])
         (checkedOut w));
      [apply turn_flushed|].
    apply World_ext; [apply Agent_ext|..]; cbn; rewrite <- ?app_assoc;
      reflexivity.
  - destruct (find (has_id id) (closeOnce w)) as [s|] eqn:Fd.
    2:{ apply (turn_quiet w _ _ []);
          [reflexivity|apply same_pool_refl|now rewrite app_nil_r|now left]. }
    pose proof (find_has_id _ _ _ Fd) as [_ Hid].
    assert (E0 : filter (fun t => negb (has_id id t)) (closeOnce w)
                 = filter (other_than s) (closeOnce w)).
    { apply filter_ext. intros t.
      unfold other_than, same_socket, has_id. now rewrite Hid. }
    rewrite E0.
    replace (socket_onClose _ _) with
      (remake w
         (if 0 <=? Js.indexOf same_socket s (availableSockets (this w))
          then Js.splice1
                 (Z.to_nat (Js.indexOf same_socket s (availableSockets (this w))))
                 (availableSockets (this w))
          else availableSockets (this w))
         (waitingCreateConn (this w))
         (connectedSockets (this w) - 1) (agentIps (this w)) (closed (this w))
         (filter (other_than s) (closeOnce w)) (timers w) (serverListening w)
         (nextSocket w)
         (if connectedSockets (this w) - 1 <=? 0 then [Emit offline] else [])
         (filter (other_than s) (checkedOut w)));
      [now apply turn_gone|].
    clear. unfold socket_onClose, remake, other_than.
    destruct w as [[av wa cn mx tmo st cl ips] co tm li nx pip ef out].
    cbn [this with_this set_connected set_available set_checkedOut
         set_closeOnce do availableSockets waitingCreateConn connectedSockets
         closeOnce checkedOut timers agentIps effects nextSocket maxTcpSockets
         closed started serverListening _socketTimeout PUBLIC_IP].
    destruct (0 <=? Js.indexOf same_socket s av);
      cbn [this with_this set_connected set_available set_checkedOut
           set_closeOnce do availableSockets waitingCreateConn
           connectedSockets closeOnce checkedOut timers agentIps effects
           nextSocket maxTcpSockets closed started serverListening
           _socketTimeout PUBLIC_IP];
      destruct (cn - 1 <=? 0); cbn; rewrite ?app_nil_r; reflexivity.
  - destruct (timers w) as [|[fn s] rest] eqn:Tm.
    { apply (turn_quiet w _ _ []);
        [reflexivity|apply same_pool_refl|now rewrite app_nil_r|now left]. }
    replace (do _ _) with
      (remake w (availableSockets (this w)) (waitingCreateConn (this w))
         (connectedSockets (this w)) (agentIps (this w)) (closed (this w))
         (closeOnce w) rest (serverListening w) (nextSocket w)
         [Call fn (Given s)] (checkedOut w));
      [now apply turn_fired|].
    now destruct w as [[av wa cn mx tmo st cl ips] co tm li nx pip ef out].
  - destruct (closed (this w)) eqn:Cl.
    { replace (createConnection cb w) with
        (remake w (availableSockets (this w)) (waitingCreateConn (this w))
           (connectedSockets (this w)) (agentIps (this w)) (closed (this w))
           (closeOnce w) (timers w) (serverListening w) (nextSocket w)
           [Call cb (Failed "closed")] (checkedOut w));
        [now apply turn_failed|].
      rewrite createConnection_closed by exact Cl.
      now destruct w as [[av wa cn mx tmo st cl ips] co tm li nx pip ef out]. }
    destruct (availableSockets (this w)) as [|sock rest] eqn:A.
    + replace (createConnection cb w) with
        (remake w [] (waitingCreateConn (this w) ++ [cb])
           (connectedSockets (this w)) (agentIps (this w)) (closed (this w))
           (closeOnce w) (timers w) (serverListening w) (nextSocket w)
           [] (checkedOut w));
        [now apply turn_parked|].
      unfold createConnection. rewrite Cl, A. cbn [Js.shift].
      apply World_ext; [apply Agent_ext|..]; cbn;
        rewrite ?Cl, ?A, ?app_nil_r; reflexivity.
    + replace (createConnection cb w) with
        (remake w rest (waitingCreateConn (this w))
           (connectedSockets (this w)) (agentIps (this w)) (closed (this w))
           (closeOnce w) (timers w) (serverListening w) (nextSocket w)
           [Call cb (Given sock)] (checkedOut w ++ [sock]));
        [now apply turn_served|].
      unfold createConnection. rewrite Cl, A. cbn [Js.shift].
      apply World_ext; [apply Agent_ext|..]; cbn;
        rewrite ?Cl, ?A, ?app_nil_r; reflexivity.
  - apply (turn_quiet w _ _ [ServerClose; SuperDestroy]);
      [reflexivity|repeat split| |now right].
    cbn. now rewrite <- app_assoc.
Qed.
End TurnOfStep.

(** ** [listen()] and the cached public address *)

Section Listening.
Context `{lib : IpAddrLib}.

(** X1.  [listen()] on an agent that was started before, whatever came of
    the first call, throws [already started] and changes nothing. *)
Theorem listen_again_throws bound f bound' f' w :
  let w1 := fst (listen bound f w) in
  listen bound' f' w1 = (w1, AlreadyStarted).
Proof.
  intros w1.
  destruct (listen_fields bound f w)
    as (_ & _ & _ & _ & _ & _ & _ & _ & _ & _ & _ & St & _).
  fold w1 in St. unfold listen at 1. now rewrite St.
Qed.

(** X2.  When the process already holds a public address, [listen()]
    makes no lookup: whatever the address service would do, it resolves
    with the bound port and the address held, which it leaves as it is. *)
Theorem listen_uses_the_address_held bound f w :
  started (this w) = false ->
  Js.truthy (PUBLIC_IP w) = true ->
  snd (listen bound f w)
  = Resolved {| port := bound; publicIp := PUBLIC_IP w |}
  /\ PUBLIC_IP (fst (listen bound f w)) = PUBLIC_IP w.
Proof.
  intros St T. unfold listen. rewrite St.
  cbn [PUBLIC_IP set_listening with_this]. rewrite T. cbn.
  rewrite T. split; reflexivity.
Qed.

(** [listen()] on a fresh agent of a process that holds no address. *)
Lemma listen_looks_up bound f w :
  started (this w) = false ->
  Js.truthy (PUBLIC_IP w) = false ->
  listen bound f w
  = let w1 := set_listening true (with_this (set_started true) w) in
    match getPublicIPv4 f with
    | Returned v =>
        (set_PUBLIC_IP v w1,
         Resolved {| port := bound;
                     publicIp := if Js.truthy v then v else None |})
    | Thrown => (w1, NeverSettles)
    end.
Proof.
  intros St T. unfold listen. rewrite St.
  cbn [PUBLIC_IP set_listening with_this]. rewrite T. cbn [negb].
  destruct (getPublicIPv4 f); reflexivity.
Qed.

(** X3.  A lookup that is answered, but not ok or with a blank body, is
    not remembered: that [listen()] resolves without [publicIp], and the
    [listen()] of the next agent of the process looks the address up
    again. *)
Theorem failed_lookup_is_retried options options' bound bound' ok text f :
  (ok = false \/ Js.trim text = EmptyString) ->
  let first := listen bound (FetchResponse ok (Some text)) (boot options) in
  snd first = Resolved {| port := bound; publicIp := None |}
  /\ Js.truthy (PUBLIC_IP (fst first)) = false
  /\ snd (listen bound' f (next_agent options' (fst first)))
     = match getPublicIPv4 f with
       | Returned v =>
           Resolved {| port := bound';
                       publicIp := if Js.truthy v then v else None |}
       | Thrown => NeverSettles
       end.
Proof.
  intros H first.
  assert (E : exists v, getPublicIPv4 (FetchResponse ok (Some text)) = Returned v
                        /\ Js.truthy v = false).
  { destruct ok; cbn; [|now exists None].
    destruct H as [H|H]; [discriminate|]. rewrite H.
    now exists (Some EmptyString). }
  destruct E as (v & E & T).
  assert (F : first
              = (set_PUBLIC_IP v
                   (set_listening true
                      (with_this (set_started true) (boot options))),
                 Resolved {| port := bound; publicIp := None |})).
  { subst first. rewrite listen_looks_up by reflexivity.
    cbn zeta. now rewrite E, T. }
  rewrite F. cbn [fst snd]. split; [reflexivity|]. split; [exact T|].
  rewrite listen_looks_up; [|reflexivity|exact T].
  cbn zeta. destruct (getPublicIPv4 f); reflexivity.
Qed.

(** X4.  Whenever [listen()] resolves, the port is the bound one, and
    [publicIp], when present, is a non-empty string: the address the
    process holds from then on. *)
Theorem listen_resolves_with_a_proper_address bound f w info :
  snd (listen bound f w) = Resolved info ->
  port info = bound
  /\ started (this w) = false
  /\ forall ip,
       publicIp info = Some ip ->
       ip <> EmptyString /\ PUBLIC_IP (fst (listen bound f w)) = Some ip.
Proof.
  unfold listen. destruct (started (this w)); [discriminate|].
  cbn [PUBLIC_IP set_listening with_this].
  assert (N : forall v ip,
            (if Js.truthy v then v else None) = Some ip ->
            ip <> EmptyString /\ v = Some ip).
  { intros [v|] ip; cbn; [|discriminate].
    destruct (v =? EmptyString)%string eqn:E; cbn; [discriminate|].
    intros [= ->]. split; [|reflexivity].
    intros ->. discriminate. }
  destruct (negb (Js.truthy (PUBLIC_IP w))).
  - destruct (getPublicIPv4 f) as [v|]; [|discriminate].
    cbn. intros [= <-]. cbn.
    split; [reflexivity|]. split; [reflexivity|]. apply N.
  - cbn. intros [= <-]. cbn.
    split; [reflexivity|]. split; [reflexivity|]. apply N.
Qed.
End Listening.

(** ** [online] and [offline] *)

Section Presence.
Context `{lib : IpAddrLib}.

Lemma presence_app a b : presence (a ++ b) = presence a ++ presence b.
Proof. apply flat_map_app. Qed.

Lemma presence_of_calls args (l : list Callback) :
  presence (map (fun cb => Call cb args) l) = [].
Proof. induction l; simpl; auto. Qed.

Lemma presence_step e w :
  Inv w ->
  (exists n, presence (effects w) = alternating n
             /\ Nat.odd n = (0 <? connectedSockets (this w))) ->
  exists n, presence (effects (step e w)) = alternating n
            /\ Nat.odd n = (0 <? connectedSockets (this (step e w))).
Proof.
  intros I (n & P & O).
  assert (Pos : 0 <= connectedSockets (this w)) by (rewrite (inv_count w I); lia).
  assert (Up : forall more,
            connectedSockets (this w) + 1 = connectedSockets (this w) + 1 ->
            presence more
            = (if connectedSockets (this w) =? 0 then [online] else []) ->
            exists n', presence (effects w ++ more) = alternating n'
                       /\ Nat.odd n' = (0 <? connectedSockets (this w) + 1)).
  { intros more _ Pm. rewrite presence_app, Pm, P.
    destruct (connectedSockets (this w) =? 0) eqn:Z0.
    - apply Z.eqb_eq in Z0. rewrite Z0 in O. cbn in O.
      exists (S n). cbn [alternating]. rewrite <- Nat.negb_odd, O.
      split; [reflexivity|]. rewrite Nat.odd_succ, <- Nat.negb_odd, O, Z0.
      reflexivity.
    - apply Z.eqb_neq in Z0. exists n. rewrite app_nil_r.
      split; [reflexivity|]. rewrite O.
      destruct (0 <? connectedSockets (this w)) eqn:L;
        [symmetry; apply Z.ltb_lt; apply Z.ltb_lt in L; lia
        |apply Z.ltb_ge in L; lia]. }
  assert (Same : forall more,
            presence more = [] ->
            exists n', presence (effects w ++ more) = alternating n'
                       /\ Nat.odd n' = (0 <? connectedSockets (this w))).
  { intros more Pm. exists n. rewrite presence_app, Pm, app_nil_r. auto. }
  pose proof (step_turn e w) as T.
  destruct T as [e w' more _ Sp Ee Hm|peer s Over|peer s Adm W|peer fn rest s Adm W
                | |id s Fd|fn s rest Tm|cb Cl|cb Cl A|cb sock rest Cl A];
    unfold remake; cbn [effects this connectedSockets].
  - destruct Sp as (_ & _ & -> & _). rewrite Ee. apply Same.
    destruct Hm as [-> | ->]; reflexivity.
  - now apply Same.
  - apply Up; [reflexivity|].
    cbn. now destruct (connectedSockets (this w) =? 0).
  - apply Up; [reflexivity|].
    cbn. now destruct (connectedSockets (this w) =? 0).
  - apply Same. now rewrite presence_app, presence_of_calls.
  - apply find_has_id in Fd. destruct Fd as [Hin _].
    assert (One : 1 <= connectedSockets (this w)).
    { rewrite (inv_count w I). destruct (closeOnce w); [destruct Hin|].
      cbn [List.length]. lia. }
    rewrite presence_app, P.
    destruct (connectedSockets (this w) - 1 <=? 0) eqn:L.
    + apply Z.leb_le in L. assert (E1 : connectedSockets (this w) = 1) by lia.
      rewrite E1 in *. cbn in O. exists (S n). cbn [alternating presence flat_map app].
      rewrite <- Nat.negb_odd, O. split; [reflexivity|].
      rewrite Nat.odd_succ, <- Nat.negb_odd, O. reflexivity.
    + apply Z.leb_gt in L. exists n. cbn. rewrite app_nil_r.
      split; [reflexivity|]. rewrite O.
      transitivity true; [apply Z.ltb_lt; lia|symmetry; apply Z.ltb_lt; lia].
  - now apply Same.
  - now apply Same.
  - now apply Same.
  - now apply Same.
Qed.

(** X5.  Over every history, the [online] and [offline] events the agent
    raised alternate, starting with [online], and the agent has raised
    [online] last exactly when sockets are connected: an odd number of
    these events just when [connectedSockets > 0]. *)
Theorem online_and_offline_alternate options es :
  let w := run es (boot options) in
  exists n,
    presence (effects w) = alternating n
    /\ (Nat.odd n = true <-> 0 < connectedSockets (this w)).
Proof.
  intros w.
  assert (H : Inv w /\ exists n, presence (effects w) = alternating n
                /\ Nat.odd n = (0 <? connectedSockets (this w))).
  { subst w. induction es as [|e es IH] using rev_ind.
    - split; [apply Inv_boot|]. exists 0%nat. split; reflexivity.
    - rewrite run_snoc. destruct IH as (I & P).
      split; [now apply Inv_step|now apply presence_step]. }
  destruct H as (_ & n & P & O). exists n. split; [exact P|].
  rewrite O. apply Z.ltb_lt.
Qed.
End Presence.

(** ** The recorded addresses *)

Section AgentIps.
Context `{lib : IpAddrLib}.

Lemma indexOf_string_absent ip (l : list string) :
  Js.indexOf String.eqb ip l = -1 <-> ~ In ip l.
Proof.
  pose proof (indexOf_lower String.eqb ip l) as Lo.
  pose proof (indexOf_absent String.eqb ip l) as Ab.
  split.
  - intros E Hin. assert (L : Js.indexOf String.eqb ip l < 0) by lia.
    apply Ab with (y := ip) in L; [|exact Hin].
    rewrite String.eqb_refl in L. discriminate.
  - intros Out. assert (L : Js.indexOf String.eqb ip l < 0); [|lia].
    apply Ab. intros y Hy. destruct (y =? ip)%string eqn:E; [|reflexivity].
    apply String.eqb_eq in E. subst y. contradiction.
Qed.

(** Saving an address appends it, if it is a new non-empty string, and
    otherwise does nothing. *)
Lemma save_agentIp_cases ag a :
  agentIps (save_agentIp ag a) = agentIps a
  \/ exists ip, ag = Some ip /\ ip <> EmptyString /\ ~ In ip (agentIps a)
                /\ agentIps (save_agentIp ag a) = agentIps a ++ [ip].
Proof.
  unfold save_agentIp. destruct ag as [ip|]; [|now left].
  destruct (Js.truthy (Some ip)) eqn:T; cbn [andb]; [|now left].
  destruct (Js.indexOf String.eqb ip (agentIps a) =? -1) eqn:E; [|now left].
  right. exists ip. apply Z.eqb_eq, indexOf_string_absent in E.
  cbn in T. apply negb_true_iff, String.eqb_neq in T. auto.
Qed.

Lemma agentIps_step e w :
  agentIps (this (step e w)) = agentIps (this w)
  \/ exists peer ip,
       e = Connection peer /\ sanitize peer = Some ip
       /\ ip <> EmptyString /\ ~ In ip (agentIps (this w))
       /\ agentIps (this (step e w)) = agentIps (this w) ++ [ip].
Proof.
  pose proof (step_turn e w) as T.
  destruct T as [e w' more _ Sp Ee Hm|peer s Over|peer s Adm W|peer fn rest s Adm W
                | |id s Fd|fn s rest Tm|cb Cl|cb Cl A|cb sock rest Cl A];
    unfold remake; cbn [this agentIps]; try (now left).
  - left. apply Sp.
  - destruct (save_agentIp_cases (sanitize peer) (this w))
      as [E|(ip & E1 & E2 & E3 & E4)]; [now left|].
    right. exists peer, ip. auto.
  - destruct (save_agentIp_cases (sanitize peer) (this w))
      as [E|(ip & E1 & E2 & E3 & E4)]; [now left|].
    right. exists peer, ip. auto.
Qed.

Lemma dialled_app es es' : dialled (es ++ es') = dialled es ++ dialled es'.
Proof. apply flat_map_app. Qed.

(** X6.  Over every history, [agentIps] holds distinct non-empty strings,
    each the sanitized peer address of a connection the history brought;
    and once recorded an address stays, in its place: whatever happens
    next only appends. *)
Theorem agentIps_are_distinct_and_kept options es :
  let w := run es (boot options) in
  NoDup (agentIps (this w))
  /\ ~ In EmptyString (agentIps (this w))
  /\ (forall ip, In ip (agentIps (this w)) ->
        exists peer, In peer (dialled es) /\ sanitize peer = Some ip)
  /\ forall es', exists more,
       agentIps (this (run es' w)) = agentIps (this w) ++ more.
Proof.
  intros w. split; [|split; [|split]].
  - subst w. induction es as [|e es IH] using rev_ind; [constructor|].
    rewrite run_snoc.
    destruct (agentIps_step e (run es (boot options)))
      as [->|(peer & ip & _ & _ & _ & Out & ->)]; [exact IH|].
    apply NoDup_app; [exact IH|repeat constructor; auto|].
    intros x Hx [<-|[]]. contradiction.
  - subst w. induction es as [|e es IH] using rev_ind; [intros []|].
    rewrite run_snoc.
    destruct (agentIps_step e (run es (boot options)))
      as [->|(peer & ip & _ & _ & Ne & _ & ->)]; [exact IH|].
    intros Hin. apply in_app_or in Hin. destruct Hin as [Hin|[Hin|[]]];
      [now apply IH|now apply Ne].
  - subst w. induction es as [|e es IH] using rev_ind; [intros ip []|].
    rewrite run_snoc, dialled_app. intros ip.
    destruct (agentIps_step e (run es (boot options)))
      as [->|(peer & ip' & -> & San & _ & _ & ->)].
    + intros Hin. destruct (IH ip Hin) as (peer & Hp & San).
      exists peer. split; [apply in_or_app; now left|exact San].
    + intros Hin. apply in_app_or in Hin. destruct Hin as [Hin|[<-|[]]].
      * destruct (IH ip Hin) as (peer' & Hp & San').
        exists peer'. split; [apply in_or_app; now left|exact San'].
      * exists peer. split; [apply in_or_app; right; now left|exact San].
  - intros es'. generalize w. clear w.
    induction es' as [|e es' IH]; intros w.
    + exists []. now rewrite app_nil_r.
    + rewrite run_cons. destruct (IH (step e w)) as (more & ->).
      destruct (agentIps_step e w) as [->|(_ & ip & _ & _ & _ & _ & ->)].
      * now exists more.
      * exists (ip :: more). now rewrite <- app_assoc.
Qed.
End AgentIps.

(** ** A socket's [close] counts once *)

Section Closes.
Context `{lib : IpAddrLib}.

(** X7.  The [close] of a socket whose listener is armed lowers
    [connectedSockets] by exactly one and disarms the listener; a [close]
    that finds no listener armed (a second [close] of the same socket, or
    the [close] of a socket the agent rejected) changes nothing. *)
Theorem close_counts_exactly_once options es :
  let w := run es (boot options) in
  (forall id,
     In id (ids (closeOnce w)) ->
     connectedSockets (this (step (SocketClosed id) w))
     = connectedSockets (this w) - 1
     /\ ~ In id (ids (closeOnce (step (SocketClosed id) w))))
  /\ (forall id,
       ~ In id (ids (closeOnce w)) -> step (SocketClosed id) w = w)
  /\ (forall id,
       step (SocketClosed id) (step (SocketClosed id) w)
       = step (SocketClosed id) w)
  /\ (forall peer,
       started (this w) && serverListening w = true ->
       maxTcpSockets (this w) <= connectedSockets (this w) ->
       step (SocketClosed (nextSocket w)) (step (Connection peer) w)
       = step (Connection peer) w).
Proof.
  intros w.
  assert (Unarmed : forall v id, ~ In id (ids (closeOnce v)) ->
                                 step (SocketClosed id) v = v).
  { intros v id Out. cbn [step].
    destruct (find (has_id id) (closeOnce v)) as [s|] eqn:Fd; [|reflexivity].
    apply find_has_id in Fd. destruct Fd as [Hin <-].
    exfalso. apply Out. now apply in_map. }
  assert (Gone : forall v id,
            ~ In id (ids (closeOnce (step (SocketClosed id) v)))).
  { intros v id. cbn [step].
    destruct (find (has_id id) (closeOnce v)) as [s|] eqn:Fd.
    - destruct (socket_onClose_fields s
                  (set_closeOnce
                     (filter (fun t => negb (has_id id t)) (closeOnce v)) v))
        as (_ & _ & _ & -> & _).
      cbn. intros Hin. apply in_map_iff in Hin.
      destruct Hin as (t & Ht & Hin). apply filter_In in Hin.
      destruct Hin as (_ & Hin). unfold has_id in Hin.
      rewrite Ht, Nat.eqb_refl in Hin. discriminate.
    - intros Hin. apply in_map_iff in Hin. destruct Hin as (t & Ht & Hin).
      apply (find_none _ _ Fd) in Hin. unfold has_id in Hin.
      rewrite Ht, Nat.eqb_refl in Hin. discriminate. }
  split; [|split; [|split]].
  - intros id Hin. split; [|apply Gone].
    cbn [step]. destruct (find (has_id id) (closeOnce w)) as [s|] eqn:Fd.
    + now destruct (socket_onClose_fields s
                      (set_closeOnce
                         (filter (fun t => negb (has_id id t)) (closeOnce w)) w))
        as (_ & _ & -> & _).
    + exfalso. apply in_map_iff in Hin. destruct Hin as (t & Ht & Hin).
      apply (find_none _ _ Fd) in Hin. unfold has_id in Hin.
      rewrite Ht, Nat.eqb_refl in Hin. discriminate.
  - intros id. apply Unarmed.
  - intros id. apply Unarmed, Gone.
  - intros peer Del Over. apply Unarmed.
    assert (I : Inv w) by apply Inv_run, Inv_boot.
    cbn [step]. rewrite Del.
    rewrite onConnection_over by exact Over. cbn.
    intros Hin. pose proof (inv_fresh w I) as F.
    rewrite Forall_forall in F. apply F in Hin. lia.
Qed.
End Closes.

(** ** No callback is lost or called twice *)

Section Callbacks.
Context `{lib : IpAddrLib}.

Lemma called_app a b : called (a ++ b) = called a ++ called b.
Proof. apply flat_map_app. Qed.

Lemma called_of_calls args (l : list Callback) :
  called (map (fun cb => Call cb args) l) = l.
Proof. induction l; simpl; congruence. Qed.

Lemma times_app cb a b : times cb (a ++ b) = (times cb a + times cb b)%nat.
Proof. apply count_occ_app. Qed.

(** The callbacks called, waiting or timed after a turn are those before
    it and the one the turn was passed. *)
Lemma callbacks_step cb e w :
  (times cb (called (effects (step e w)))
   + times cb (waitingCreateConn (this (step e w)))
   + times cb (map fst (timers (step e w))))%nat
  = (times cb (called (effects w))
     + times cb (waitingCreateConn (this w))
     + times cb (map fst (timers w))
     + times cb (requested [e]))%nat.
Proof.
  pose proof (step_turn e w) as T.
  destruct T as [e w' more Rq Sp Ee Hm|peer s Over|peer s Adm W|peer fn rest s Adm W
                | |id s Fd|fn s rest Tm|cb' Cl|cb' Cl A|cb' sock rest Cl A];
    unfold remake, times; cbn [effects this waitingCreateConn timers];
    rewrite ?called_app, ?map_app, ?count_occ_app;
    try (assert (E : called
                   (SetTimeout s (_socketTimeout (this w))
                      :: (if connectedSockets (this w) =? 0 then [Emit online]
                          else [])) = [])
           by (destruct (connectedSockets (this w) =? 0); reflexivity);
         rewrite E);
    try (assert (E : called
                   (if connectedSockets (this w) - 1 <=? 0 then [Emit offline]
                    else []) = [])
           by (destruct (connectedSockets (this w) - 1 <=? 0); reflexivity);
         rewrite E);
    rewrite ?called_of_calls, ?W, ?Tm;
    try (destruct Sp as (_ & -> & _ & _ & _ & _ & _ & -> & _);
         rewrite Ee, Rq, called_app, count_occ_app;
         destruct Hm as [-> | ->]);
    try (destruct (Nat.eq_dec fn cb) as [->|Ne]);
    try (destruct (Nat.eq_dec cb' cb) as [->|Ne]);
    cbn [called requested flat_map app map fst];
    repeat first [ rewrite count_occ_cons_eq by reflexivity
                 | rewrite count_occ_cons_neq by assumption
                 | rewrite count_occ_nil ];
    unfold Callback in *; lia.
Qed.

Lemma requested_app es es' :
  requested (es ++ es') = requested es ++ requested es'.
Proof. apply flat_map_app. Qed.

(** X8.  Over every history, each callback passed to [createConnection]
    is in exactly one place: called (with a socket or with an error),
    waiting in the queue, or set on a timer.  Counting repetitions, a
    callback is there as often as it was passed: none is dropped and none
    is called more often than it was passed. *)
Theorem callbacks_are_conserved options es cb :
  let w := run es (boot options) in
  times cb (requested es)
  = (times cb (called (effects w))
     + times cb (waitingCreateConn (this w))
     + times cb (map fst (timers w)))%nat.
Proof.
  intros w. subst w. induction es as [|e es IH] using rev_ind; [reflexivity|].
  rewrite run_snoc, requested_app, times_app, callbacks_step, IH.
  unfold times, Callback. lia.
Qed.
End Callbacks.

(** ** No socket is given twice *)

Section Sockets.
Context `{lib : IpAddrLib}.

Lemma given_app a b : given (a ++ b) = given a ++ given b.
Proof. apply flat_map_app. Qed.

Lemma given_of_failures msg (l : list Callback) :
  given (map (fun cb => Call cb (Failed msg)) l) = [].
Proof. induction l; simpl; auto. Qed.

Lemma ids_app a b : ids (a ++ b) = ids a ++ ids b.
Proof. apply map_app. Qed.

Lemma NoDup_app_parts {A} (l l' : list A) :
  NoDup (l ++ l') ->
  NoDup l /\ NoDup l' /\ forall a, In a l -> ~ In a l'.
Proof.
  induction l as [|x l IH]; cbn; intros ND.
  - split; [constructor|]. split; [assumption|]. intros a [].
  - inversion ND as [|? ? Hx ND']; subst. destruct (IH ND') as (N1 & N2 & D).
    split; [constructor; [|assumption]|split; [assumption|]].
    + intros Hin. apply Hx. apply in_or_app. now left.
    + intros a [<-|Ha]; [|now apply D].
      intros Hin. apply Hx. apply in_or_app. now right.
Qed.

Lemma NoDup_app_filter {A} (p : A -> bool) (l l' : list A) :
  NoDup (l ++ l') -> NoDup (l ++ filter p l').
Proof.
  intros ND. destruct (NoDup_app_parts l l' ND) as (N1 & N2 & D).
  apply NoDup_app; [assumption|now apply NoDup_filter|].
  intros a Ha Hin. apply filter_In in Hin. now apply (D a Ha).
Qed.

Lemma perm_new_last (x : nat) a b c :
  Permutation (a ++ b ++ c ++ [x]) (x :: a ++ b ++ c).
Proof.
  rewrite !app_assoc. symmetry. apply Permutation_cons_append.
Qed.

Lemma perm_new_middle (x : nat) a b c :
  Permutation (a ++ (b ++ [x]) ++ c) (x :: a ++ b ++ c).
Proof.
  rewrite <- (app_assoc b). cbn [app]. rewrite !app_assoc.
  symmetry. apply Permutation_middle.
Qed.

Lemma perm_moved_front (x : nat) a b c :
  Permutation ((a ++ [x]) ++ b ++ c) (a ++ b ++ x :: c).
Proof.
  rewrite <- app_assoc. cbn [app]. apply Permutation_app_head.
  apply Permutation_middle.
Qed.

(** The sockets given, those set on timers and those in the pool, after a
    turn: the same as before, or those and the socket that just came, or
    some of those. *)
Lemma sockets_step e w :
  let L := fun v => ids (given (effects v) ++ map snd (timers v)
                         ++ availableSockets (this v)) in
  NoDup (L w) ->
  (Permutation (L (step e w)) (L w)
   /\ (nextSocket w <= nextSocket (step e w))%nat)
  \/ (Permutation (L (step e w)) (nextSocket w :: L w)
      /\ nextSocket (step e w) = S (nextSocket w))
  \/ (incl (L (step e w)) (L w) /\ NoDup (L (step e w))
      /\ nextSocket (step e w) = nextSocket w).
Proof.
  intros L ND. subst L. cbn beta in *.
  pose proof (step_turn e w) as T.
  destruct T as [e w' more Rq Sp Ee Hm|peer s Over|peer s Adm W|peer fn rest s Adm W
                | |id s Fd|fn s rest Tm|cb' Cl|cb' Cl A|cb' sock rest Cl A];
    unfold remake; cbn [effects this availableSockets timers nextSocket];
    rewrite ?given_app.
  - left. destruct Sp as (-> & _ & _ & _ & _ & _ & _ & -> & -> & _).
    rewrite Ee, given_app.
    destruct Hm as [-> | ->]; cbn; rewrite app_nil_r; split; auto.
  - left. cbn. rewrite app_nil_r. split; [reflexivity|lia].
  - right. left. split; [|reflexivity].
    assert (E : given (SetTimeout s (_socketTimeout (this w))
                  :: (if connectedSockets (this w) =? 0 then [Emit online]
                      else [])) = [])
      by (destruct (connectedSockets (this w) =? 0); reflexivity).
    rewrite E, app_nil_r. unfold ids. rewrite !map_app. cbn [map sock_id s].
    apply perm_new_last.
  - right. left. split; [|reflexivity].
    assert (E : given (SetTimeout s (_socketTimeout (this w))
                  :: (if connectedSockets (this w) =? 0 then [Emit online]
                      else [])) = [])
      by (destruct (connectedSockets (this w) =? 0); reflexivity).
    rewrite E, app_nil_r. unfold ids. rewrite !map_app.
    cbn [map snd sock_id s]. apply perm_new_middle.
  - left. rewrite ?given_app, given_of_failures. cbn. rewrite app_nil_r.
    split; reflexivity.
  - right. right.
    assert (E : given (if connectedSockets (this w) - 1 <=? 0
                       then [Emit offline] else []) = [])
      by (destruct (connectedSockets (this w) - 1 <=? 0); reflexivity).
    rewrite E, app_nil_r.
    assert (NDa : NoDup (ids (availableSockets (this w)))).
    { rewrite !ids_app in ND. apply NoDup_app_parts in ND.
      destruct ND as (_ & ND & _). apply NoDup_app_parts in ND. tauto. }
    rewrite (splice_indexOf s _ NDa).
    rewrite !ids_app, ids_filter. rewrite !ids_app in ND.
    split; [|split; [|reflexivity]].
    + apply incl_app; [apply incl_appl, incl_refl|]. apply incl_appr.
      apply incl_app; [apply incl_appl, incl_refl|].
      apply incl_appr, incl_filter.
    + rewrite app_assoc. apply NoDup_app_filter. now rewrite <- app_assoc.
  - left. rewrite Tm. cbn [given flat_map map snd app]. rewrite <- app_assoc.
    cbn [app]. split; reflexivity.
  - left. cbn. rewrite app_nil_r. split; reflexivity.
  - left. rewrite A. cbn. rewrite app_nil_r. split; reflexivity.
  - left. rewrite A. cbn [given flat_map app]. split; [|reflexivity].
    unfold ids. rewrite !map_app. cbn [map]. apply perm_moved_front.
Qed.

Lemma sockets_run options es :
  let w := run es (boot options) in
  let L := ids (given (effects w) ++ map snd (timers w)
                ++ availableSockets (this w)) in
  NoDup L /\ Forall (fun i => i < nextSocket w)%nat L.
Proof.
  cbn zeta. induction es as [|e es IH] using rev_ind.
  - split; constructor.
  - rewrite run_snoc. destruct IH as (ND & F).
    destruct (sockets_step e (run es (boot options)) ND)
      as [(P & Le)|[(P & En)|(In' & ND' & En)]].
    + split; [eapply Permutation_NoDup; [symmetry; exact P|exact ND]|].
      eapply Permutation_Forall; [symmetry; exact P|].
      eapply Forall_impl; [|exact F]. cbn. intros i Hi. lia.
    + assert (Fr : ~ In (nextSocket (run es (boot options)))
                     (ids (given (effects (run es (boot options)))
                           ++ map snd (timers (run es (boot options)))
                           ++ availableSockets (this (run es (boot options)))))).
      { intros Hin. rewrite Forall_forall in F. apply F in Hin. lia. }
      split.
      * eapply Permutation_NoDup; [symmetry; exact P|]. now constructor.
      * eapply Permutation_Forall; [symmetry; exact P|]. rewrite En.
        constructor; [lia|]. eapply Forall_impl; [|exact F]. cbn. lia.
    + split; [exact ND'|]. rewrite En. apply Forall_forall. intros i Hi.
      rewrite Forall_forall in F. apply F, In', Hi.
Qed.

(** X9.  Over every history no socket is given out twice: the sockets
    given to callbacks, those set on a timer to be given and those idle in
    the pool are all different sockets.  A socket that was given or timed
    never comes back to the pool. *)
Theorem sockets_are_given_once options es :
  let w := run es (boot options) in
  NoDup (ids (given (effects w) ++ map snd (timers w)
              ++ availableSockets (this w))).
Proof. intros w. apply (sockets_run options es). Qed.
End Sockets.

(** ** The agent destroys only what it rejects *)

Section Destroys.
Context `{lib : IpAddrLib}.



End Destroys.

(** ** After the close cascade *)

Section Cascade.
Context `{lib : IpAddrLib}.

Lemma closed_step e w :
  closed (this w) = true ->
  waitingCreateConn (this w) = [] ->
  closed (this (step e w)) = true
  /\ waitingCreateConn (this (step e w)) = []
  /\ ((timers (step e w) = timers w
       /\ given (effects (step e w)) = given (effects w))
      \/ exists fn s,
           timers w = (fn, s) :: timers (step e w)
           /\ given (effects (step e w)) = given (effects w) ++ [s])
  /\ forall cb,
       e = CreateConnection cb ->
       effects (step e w) = effects w ++ [Call cb (Failed "closed")].
Proof.
  intros Cl W. pose proof (step_turn e w) as T.
  destruct T as [e w' more Rq Sp Ee Hm|peer s' Over|peer s' Adm W'|peer fn rest s' Adm W'
                | |id s' Fd|fn s' rest Tm|cb' Cl'|cb' Cl' A|cb' sock rest Cl' A];
    unfold remake;
    cbn [effects this availableSockets timers closed waitingCreateConn];
    rewrite ?given_app; try congruence.
  - destruct Sp as (_ & -> & _ & _ & -> & _ & _ & -> & _).
    rewrite Ee, given_app. split; [exact Cl|]. split; [exact W|].
    split; [left; split; [reflexivity|]|].
    + destruct Hm as [-> | ->]; cbn; now rewrite app_nil_r.
    + intros cb ->. discriminate.
  - cbn. rewrite app_nil_r. repeat split; auto. discriminate.
  - split; [exact Cl|]. split; [reflexivity|]. split; [|discriminate].
    left. split; [reflexivity|].
    destruct (connectedSockets (this w) =? 0); cbn; now rewrite app_nil_r.
  - split; [reflexivity|]. split; [reflexivity|]. split; [|discriminate].
    left. split; [reflexivity|].
    rewrite ?given_app, given_of_failures. cbn. now rewrite app_nil_r.
  - split; [exact Cl|]. split; [exact W|]. split; [|discriminate].
    left. split; [reflexivity|].
    destruct (connectedSockets (this w) - 1 <=? 0); cbn; now rewrite app_nil_r.
  - split; [exact Cl|]. split; [exact W|]. split; [|discriminate].
    right. exists fn, s'. split; [exact Tm|reflexivity].
  - split; [exact Cl|]. split; [exact W|]. split.
    + left. cbn. now rewrite app_nil_r.
    + now intros cb [= ->].
Qed.

Lemma effects_grow es : forall w,
  exists more, effects (run es w) = effects w ++ more.
Proof.
  induction es as [|e es IH]; intros w.
  { exists []. now rewrite app_nil_r. }
  rewrite run_cons. destruct (IH (step e w)) as (more & ->).
  assert (S1 : exists m, effects (step e w) = effects w ++ m).
  { pose proof (step_turn e w) as T.
    destruct T; unfold remake; cbn [effects]; eauto. }
  destruct S1 as (m & ->). exists (m ++ more). now rewrite app_assoc.
Qed.

Lemma closed_run es : forall w,
  closed (this w) = true ->
  waitingCreateConn (this w) = [] ->
  closed (this (run es w)) = true
  /\ waitingCreateConn (this (run es w)) = []
  /\ (exists k,
        given (effects (run es w))
        = given (effects w) ++ map snd (firstn k (timers w))
        /\ timers (run es w) = skipn k (timers w))
  /\ forall cb,
       In (CreateConnection cb) es ->
       In (Call cb (Failed "closed")) (effects (run es w)).
Proof.
  induction es as [|e es IH]; intros w Cl W.
  { cbn. split; [exact Cl|]. split; [exact W|]. split; [|intros cb []].
    exists 0%nat. cbn. now rewrite app_nil_r. }
  rewrite run_cons.
  destruct (closed_step e w Cl W) as (Cl1 & W1 & Tm & Fail).
  destruct (IH (step e w) Cl1 W1) as (Cl2 & W2 & (k & Eg & Et) & Calls).
  split; [exact Cl2|]. split; [exact W2|]. split.
  - destruct Tm as [(T1 & G1)|(fn & s & T1 & G1)].
    + exists k. now rewrite Eg, Et, T1, G1.
    + exists (S k). rewrite Eg, Et, G1, T1. cbn. now rewrite <- app_assoc.
  - intros cb [->|Hin]; [|now apply Calls].
    destruct (effects_grow es (step (CreateConnection cb) w)) as (more & ->).
    rewrite (Fail cb eq_refl). apply in_or_app. left. apply in_or_app.
    right. now left.
Qed.

(** X11.  Once the close cascade has run, whatever happens next: the
    agent stays closed, nothing waits in the queue again, every callback
    passed to [createConnection] is called with the [closed] error, and
    the only sockets still given to callbacks are those of hand-offs
    whose timer was set before the cascade, in the order they were set. *)
Theorem after_the_close_cascade w0 es :
  let w := _onClose w0 in
  let w' := run es w in
  closed (this w') = true
  /\ waitingCreateConn (this w') = []
  /\ (exists k,
        given (effects w')
        = given (effects w) ++ map snd (firstn k (timers w0))
        /\ timers w' = skipn k (timers w0))
  /\ forall cb,
       In (CreateConnection cb) es ->
       In (Call cb (Failed "closed")) (effects w').
Proof.
  intros w w'. apply (closed_run es w); reflexivity.
Qed.
End Cascade.

(** ** The ceiling at its ends *)

Section Ends.
Context `{lib : IpAddrLib}.

(** X12.  The configured ceiling is never 0: a missing or 0 option gives
    10.  A negative option is kept, and then the agent refuses every
    socket: over every history nothing is admitted, pooled, recorded or
    given, and [online] is never raised. *)
Theorem ceiling_is_never_zero_and_may_refuse_all options es :
  let w := run es (boot options) in
  maxTcpSockets (this w) <> 0
  /\ (opt_maxTcpSockets options = None \/ opt_maxTcpSockets options = Some 0 ->
      maxTcpSockets (this w) = 10)
  /\ (maxTcpSockets (new_TunnelAgent options) < 0 ->
      connectedSockets (this w) = 0
      /\ availableSockets (this w) = []
      /\ closeOnce w = []
      /\ agentIps (this w) = []
      /\ timers w = []
      /\ given (effects w) = []
      /\ presence (effects w) = []).
Proof.
  intros w. subst w. rewrite run_maxTcpSockets.
  split; [|split].
  - cbn. unfold Js.or_default, DEFAULT_MAX_SOCKETS.
    destruct (opt_maxTcpSockets options) as [v|]; [|discriminate].
    destruct (v =? 0) eqn:E; [discriminate|]. now apply Z.eqb_neq.
  - cbn. intros [-> | ->]; reflexivity.
  - intros Neg. induction es as [|e es IH] using rev_ind.
    { repeat split; reflexivity. }
    rewrite run_snoc. set (v := run es (boot options)) in *.
    destruct IH as (Ec & Ea & El & Ei & Et & Eg & Ep).
    assert (Em : maxTcpSockets (this v) < 0)
      by (subst v; now rewrite run_maxTcpSockets).
    pose proof (step_turn e v) as T.
    destruct T as [e w' more Rq Sp Ee Hm|peer s' Over|peer s' Adm W'|peer fn rest s' Adm W'
                  | |id s' Fd|fn s' rest Tm|cb' Cl'|cb' Cl' A|cb' sock rest Cl' A];
      unfold remake;
      cbn [effects this availableSockets timers closeOnce connectedSockets
           agentIps];
      rewrite ?given_app, ?presence_app, ?Ec, ?Ea, ?El, ?Ei, ?Et, ?Eg, ?Ep;
      try lia; try congruence.
    + destruct Sp as (-> & _ & -> & -> & _ & _ & -> & -> & _).
      rewrite Ee, given_app, presence_app, Eg, Ep.
      destruct Hm as [-> | ->]; repeat split; assumption.
    + repeat split; reflexivity.
    + rewrite ?given_app, ?presence_app, given_of_failures, presence_of_calls.
      repeat split; reflexivity.
    + rewrite El in Fd. discriminate.
    + repeat split; reflexivity.
    + repeat split; reflexivity.
Qed.

End Ends.

(** ** What [stats()] counts, and a hand-off that comes too late *)

Section Stats.
Context `{lib : IpAddrLib}.

(** X14.  Over every history [stats()] is the number of sockets the agent
    admitted whose [close] has not come: the sockets with a [close]
    listener armed, which are all different sockets the runtime has
    created. *)
Theorem stats_counts_the_armed_sockets options es :
  let w := run es (boot options) in
  stats w = Z.of_nat (List.length (closeOnce w))
  /\ NoDup (ids (closeOnce w))
  /\ Forall (fun i => i < nextSocket w)%nat (ids (closeOnce w)).
Proof.
  intros w. assert (I : Inv w) by apply Inv_run, Inv_boot.
  split; [apply I|]. split; apply I.
Qed.

Lemma closed_socket_is_disarmed id w :
  ~ In id (ids (closeOnce (step (SocketClosed id) w))).
Proof.
  cbn [step]. destruct (find (has_id id) (closeOnce w)) as [s|] eqn:Fd.
  - destruct (socket_onClose_fields s
                (set_closeOnce
                   (filter (fun t => negb (has_id id t)) (closeOnce w)) w))
      as (_ & _ & _ & -> & _).
    cbn. intros Hin. apply in_map_iff in Hin.
    destruct Hin as (t & Ht & Hin). apply filter_In in Hin.
    destruct Hin as (_ & Hin). unfold has_id in Hin.
    rewrite Ht, Nat.eqb_refl in Hin. discriminate.
  - intros Hin. apply in_map_iff in Hin. destruct Hin as (t & Ht & Hin).
    apply (find_none _ _ Fd) in Hin. unfold has_id in Hin.
    rewrite Ht, Nat.eqb_refl in Hin. discriminate.
Qed.

(** X15.  The [close] of a socket does not cancel a hand-off set for it:
    when the timer fires next, the callback is given the socket although
    its [close] has come. *)
Theorem closed_socket_is_still_handed_off w fn s rest :
  timers w = (fn, s) :: rest ->
  let w' := run [SocketClosed (sock_id s); TimerFires] w in
  (exists more, effects w' = effects w ++ more ++ [Call fn (Given s)])
  /\ timers w' = rest
  /\ ~ In (sock_id s) (ids (closeOnce w')).
Proof.
  intros Tm w'. subst w'. rewrite run_cons.
  pose proof (closed_socket_is_disarmed (sock_id s) w) as Out.
  set (w1 := step (SocketClosed (sock_id s)) w) in *.
  assert (E1 : timers w1 = timers w
               /\ exists more, effects w1 = effects w ++ more).
  { subst w1. cbn [step].
    destruct (find (has_id (sock_id s)) (closeOnce w)) as [t|].
    - destruct (socket_onClose_fields t
                  (set_closeOnce
                     (filter (fun u => negb (has_id (sock_id s) u))
                             (closeOnce w)) w))
        as (_ & _ & _ & _ & _ & Et & _ & Ee & _).
      split; [exact Et|]. eexists. exact Ee.
    - split; [reflexivity|]. exists []. now rewrite app_nil_r. }
  destruct E1 as (Et & more & Ee). clearbody w1.
  unfold run. cbn [fold_left step]. rewrite Et, Tm. cbn.
  split; [|split; [reflexivity|exact Out]].
  exists more. now rewrite Ee, <- app_assoc.
Qed.
End Stats.

(* ================================================================== *)
(** * The statements on sample histories *)

Import IpAddrRef.

(** Two callbacks wait; the socket that comes next goes to the first of
    them, not to the one that was queued last. *)
Lemma parked_callback_may_wait_longer : ~ parked_callback_gets_next_socket.
Proof.
  intros H.
  specialize (H Sample.defaults [Listen 40000 Sample.answered; CreateConnection 1%nat]
                2%nat "198.51.100.4"%string
                eq_refl eq_refl eq_refl eq_refl ltac:(computed)).
  cbn in H. destruct H as [H|[]]. discriminate H.
Qed.

(** [createConnection_spec] on an agent with one callback waiting: the
    second socket to come is the one set for the new callback. *)
Lemma createConnection_spec_sample :
  let w := Sample.one_waiting in
  (closed (this w) = false /\ availableSockets (this w) = [])
  /\ waitingCreateConn (this (createConnection 2%nat w)) = [1%nat; 2%nat]
  /\ timers (run (map Connection ["198.51.100.4"; "198.51.100.5"]%string)
                 (createConnection 2%nat w))
     = [(1%nat, {| sock_id := 0; remoteAddress := "198.51.100.4" |});
        (2%nat, {| sock_id := 1; remoteAddress := "198.51.100.5" |})].
Proof.
  intros w. split; [split; reflexivity|].
  destruct (createConnection_spec w 2%nat) as (_ & _ & H).
  destruct (H eq_refl eq_refl) as (Q & _ & _ & N).
  split; [exact Q|].
  destruct (N ["198.51.100.4"%string] "198.51.100.5"%string
              eq_refl eq_refl eq_refl ltac:(computed)) as (T & _).
  exact T.
Defined.

(** An agent is destroyed while a socket idles in its pool; the next
    [createConnection] is given that socket. *)
Lemma destroy_leaves_the_agent_open : ~ destroy_fails_callers_at_once.
Proof.
  intros H.
  specialize (H Sample.defaults
                [Listen 40000 Sample.answered; Connection "198.51.100.4"%string]
                7%nat).
  vm_compute in H. discriminate H.
Qed.

(** [after_destroy] on an agent with one idle socket. *)
Lemma after_destroy_sample :
  let w := Sample.one_idle in
  let es := [CreateConnection 7%nat; Connection "198.51.100.5"%string;
             ServerClosed; CreateConnection 8%nat] in
  started (this w) = true
  /\ nextSocket (run es (destroy w)) = nextSocket w
  /\ connectedSockets (this (run es (destroy w))) <= connectedSockets (this w)
  /\ closed (this (run es (destroy w))) = true.
Proof.
  intros w es. split; [reflexivity|].
  destruct (after_destroy w es eq_refl) as (_ & N & _ & _ & C & Cl).
  split; [exact N|]. split; [exact C|].
  apply Cl. right. right. now left.
Defined.


(** [fifo_service] on a pool of three: two checkouts get the two oldest
    sockets; and on an empty agent: two callbacks queue up and the two
    sockets that come are set for them in order. *)
Lemma fifo_service_sample :
  let w := run Sample.three_idle (boot Sample.defaults) in
  let v := Sample.listening in
  (closed (this w) = false /\ closed (this v) = false)
  /\ effects (run (map CreateConnection [5; 6]%nat) w)
     = effects w
       ++ [Call 5%nat (Given {| sock_id := 0; remoteAddress := "198.51.100.4" |});
           Call 6%nat (Given {| sock_id := 1; remoteAddress := "198.51.100.5" |})]
  /\ timers (run (map Connection ["198.51.100.4"; "198.51.100.5"]%string)
                 (run (map CreateConnection [5; 6]%nat) v))
     = [(5%nat, {| sock_id := 0; remoteAddress := "198.51.100.4" |});
        (6%nat, {| sock_id := 1; remoteAddress := "198.51.100.5" |})].
Proof.
  intros w v. split; [split; reflexivity|]. split.
  - destruct (fifo_service Sample.defaults Sample.three_idle)
      as (_ & _ & _ & H & _).
    destruct (H [5; 6]%nat eq_refl ltac:(computed)) as (E & _). exact E.
  - destruct (fifo_service Sample.defaults [Listen 40000 Sample.answered])
      as (_ & _ & _ & _ & H).
    destruct (H [5; 6]%nat ["198.51.100.4"; "198.51.100.5"]%string
                eq_refl eq_refl eq_refl eq_refl
                ltac:(computed) ltac:(computed)) as (_ & T & _).
    exact T.
Defined.

(** [peer_address_is_normalised_then_recorded] on the reference ipaddr: a
    socket dialling in from [::ffff:1.2.3.4] is recorded as [1.2.3.4]. *)
Lemma peer_address_is_normalised_then_recorded_sample :
  let w := Sample.listening in
  let socket := {| sock_id := 0; remoteAddress := "::ffff:1.2.3.4" |} in
  connectedSockets (this w) < maxTcpSockets (this w)
  /\ sanitize (remoteAddress socket) = Some "1.2.3.4"%string
  /\ agentIps (this (_onConnection socket w)) = ["1.2.3.4"%string].
Proof.
  intros w socket. split; [computed|]. split; [reflexivity|].
  destruct (peer_address_is_normalised_then_recorded w socket
              ltac:(computed)) as (H & _).
  destruct (H "1.2.3.4"%string eq_refl ltac:(discriminate)) as (_ & _ & A).
  apply A. intros [].
Defined.

(** [closed_paths_leave_the_pool] on a closed agent that holds an idle
    socket. *)
Lemma closed_paths_leave_the_pool_sample :
  let w := Sample.closed_with_idle in
  closed (this w) = true
  /\ availableSockets (this (createConnection 3%nat w))
     = [{| sock_id := 0; remoteAddress := "198.51.100.4" |}]
  /\ effects (createConnection 3%nat w)
     = effects w ++ [Call 3%nat (Failed "closed")].
Proof.
  intros w. split; [reflexivity|].
  destruct (closed_paths_leave_the_pool w) as (_ & H).
  destruct (H 3%nat eq_refl) as (A & _ & E).
  split; [exact A|exact E].
Defined.

(** [listen_uses_the_address_held] on the second agent of a process whose
    first agent found the address: no lookup, even one that would reject. *)
Lemma listen_uses_the_address_held_sample :
  let w := next_agent Sample.defaults Sample.listening in
  (started (this w) = false /\ Js.truthy (PUBLIC_IP w) = true)
  /\ snd (listen 40001 FetchRejected w)
     = Resolved {| port := 40001; publicIp := Some "203.0.113.7"%string |}.
Proof.
  intros w. split; [split; vm_compute; reflexivity|].
  destruct (listen_uses_the_address_held 40001 FetchRejected w
              eq_refl eq_refl) as (R & _).
  etransitivity; [exact R|vm_compute; reflexivity].
Defined.

(** [failed_lookup_is_retried]: the service first answers not ok, then
    with the address. *)
Lemma failed_lookup_is_retried_sample :
  let first := listen 40000 (FetchResponse false (Some "busy"%string))
                      (boot Sample.defaults) in
  snd first = Resolved {| port := 40000; publicIp := None |}
  /\ snd (listen 40001 Sample.answered (next_agent Sample.defaults (fst first)))
     = Resolved {| port := 40001; publicIp := Some "203.0.113.7"%string |}.
Proof.
  intros first.
  destruct (failed_lookup_is_retried Sample.defaults Sample.defaults
              40000 40001 false "busy"%string Sample.answered
              (or_introl eq_refl)) as (R1 & _ & R2).
  split; [exact R1|].
  etransitivity; [exact R2|vm_compute; reflexivity].
Defined.

(** [listen_resolves_with_a_proper_address] on the first agent. *)
Lemma listen_resolves_with_a_proper_address_sample :
  let info := {| port := 40000; publicIp := Some "203.0.113.7"%string |} in
  snd (listen 40000 Sample.answered (boot Sample.defaults)) = Resolved info
  /\ port info = 40000
  /\ PUBLIC_IP (fst (listen 40000 Sample.answered (boot Sample.defaults)))
     = Some "203.0.113.7"%string.
Proof.
  intros info.
  assert (R : snd (listen 40000 Sample.answered (boot Sample.defaults))
              = Resolved info) by (vm_compute; reflexivity).
  split; [exact R|].
  destruct (listen_resolves_with_a_proper_address
              40000 Sample.answered (boot Sample.defaults) info R)
    as (P & _ & A).
  split; [exact P|]. apply (A "203.0.113.7"%string eq_refl).
Defined.

(** [agentIps_are_distinct_and_kept] after three sockets dialled in. *)
Lemma agentIps_are_distinct_and_kept_sample :
  let w := run Sample.three_idle (boot Sample.defaults) in
  In "198.51.100.5"%string (agentIps (this w))
  /\ NoDup (agentIps (this w))
  /\ exists peer,
       In peer (dialled Sample.three_idle)
       /\ sanitize peer = Some "198.51.100.5"%string.
Proof.
  intros w.
  assert (Hin : In "198.51.100.5"%string (agentIps (this w)))
    by (vm_compute; right; left; reflexivity).
  destruct (agentIps_are_distinct_and_kept Sample.defaults Sample.three_idle)
    as (ND & _ & From & _).
  split; [exact Hin|]. split; [exact ND|]. exact (From _ Hin).
Defined.

(** [close_counts_exactly_once] with a ceiling of two: the first socket
    closes, and the third, which was rejected, closes. *)
Lemma close_counts_exactly_once_sample :
  let w := run Sample.three_idle (boot Sample.two_sockets) in
  (In 0%nat (ids (closeOnce w)) /\ ~ In 2%nat (ids (closeOnce w)))
  /\ connectedSockets (this (step (SocketClosed 0) w)) = 1
  /\ step (SocketClosed 2) w = w.
Proof.
  intros w.
  assert (A : In 0%nat (ids (closeOnce w)))
    by (vm_compute; left; reflexivity).
  assert (U : ~ In 2%nat (ids (closeOnce w)))
    by (vm_compute; intros [H|[H|[]]]; discriminate H).
  destruct (close_counts_exactly_once Sample.two_sockets Sample.three_idle)
    as (Armed & Unarmed & _).
  split; [split; assumption|]. split.
  - destruct (Armed 0%nat A) as (E & _).
    transitivity (connectedSockets (this w) - 1);
      [exact E|vm_compute; reflexivity].
  - exact (Unarmed 2%nat U).
Defined.


(** [after_the_close_cascade]: a callback that comes after the cascade. *)
Lemma after_the_close_cascade_sample :
  let w := _onClose Sample.one_idle in
  In (CreateConnection 9%nat) [TimerFires; CreateConnection 9%nat]
  /\ In (Call 9%nat (Failed "closed"))
        (effects (run [TimerFires; CreateConnection 9%nat] w)).
Proof.
  intros w.
  assert (H : In (CreateConnection 9%nat) [TimerFires; CreateConnection 9%nat])
    by (right; left; reflexivity).
  destruct (after_the_close_cascade Sample.one_idle
              [TimerFires; CreateConnection 9%nat]) as (_ & _ & _ & F).
  split; [exact H|exact (F 9%nat H)].
Defined.

(** [ceiling_is_never_zero_and_may_refuse_all] with a ceiling of -1. *)
Lemma ceiling_is_never_zero_and_may_refuse_all_sample :
  let options := {| opt_maxTcpSockets := Some (-1); opt_socketTimeout := None |} in
  let w := run Sample.three_idle (boot options) in
  maxTcpSockets (new_TunnelAgent options) < 0
  /\ connectedSockets (this w) = 0
  /\ availableSockets (this w) = [].
Proof.
  intros options w.
  assert (N : maxTcpSockets (new_TunnelAgent options) < 0) by computed.
  destruct (ceiling_is_never_zero_and_may_refuse_all options Sample.three_idle)
    as (_ & _ & R).
  destruct (R N) as (C & A & _).
  split; [exact N|]. split; [exact C|exact A].
Defined.


(** [closed_socket_is_still_handed_off]: a callback waits, a socket comes
    and closes before the timer fires. *)
Lemma closed_socket_is_still_handed_off_sample :
  let w := run [Connection "198.51.100.4"%string] Sample.one_waiting in
  let s := {| sock_id := 0; remoteAddress := "198.51.100.4" |} in
  timers w = [(1%nat, s)]
  /\ exists more,
       effects (run [SocketClosed 0; TimerFires] w)
       = effects w ++ more ++ [Call 1%nat (Given s)].
Proof.
  intros w s.
  assert (T : timers w = (1%nat, s) :: []) by (vm_compute; reflexivity).
  split; [exact T|].
  destruct (closed_socket_is_still_handed_off w 1%nat s [] T) as (E & _).
  exact E.
Defined.
